(** * jobsd: handler binding, job descriptor and argument list (job.go)

    A shallow embedding of [job.go] and a verification of its specification.

    The file has three layers:
    - [reflect]: the part of Go's [reflect] package that [JobFunc] uses
      (kinds, types, values, [Call]), together with the run-time notions it
      rests on: interface values, panics and the log of invoked functions;
    - the program itself: [JobFunc] ([check], [paramsCount], [execute]),
      [JobContainer] (the three setters, on a heap of descriptors) and
      [Args] ([Scan], [Value]), the latter over the [gob] codec taken as a
      parameter;
    - the theorems. *)

From Stdlib Require Import ZArith Lia.
From Stdlib.Strings Require Import Byte.
From stdpp Require Import base option list strings gmap.

Open Scope string_scope.
Open Scope list_scope.
Set Warnings "-register-all".

(* ===================================================================== *)
(** ** Go run-time notions *)
(* ===================================================================== *)

Module reflect.

(** [reflect.Kind], in the order of the Go declaration. *)
Inductive Kind : Set :=
| Invalid | Bool | Int | Int8 | Int16 | Int32 | Int64
| Uint | Uint8 | Uint16 | Uint32 | Uint64 | Uintptr
| Float32 | Float64 | Complex64 | Complex128
| Array | Chan | Func | Interface | Map | Pointer | Slice
| String | Struct | UnsafePointer.

#[global] Instance Kind_eq_dec : EqDecision Kind.
Proof. solve_decision. Defined.

(** Go types as [reflect] sees them.  Method sets are lists of method
    names; a defined type records the methods declared with a value
    receiver and those declared with a pointer receiver. *)
Inductive rtype : Type :=
| TBasic (k : Kind)                        (* predeclared: bool, int, string, ... *)
| TComposite (k : Kind) (descr : string)   (* array, chan, map, struct literal *)
| TSlice (elem : rtype)
| TPtr (elem : rtype)
| TInterface (methods : list string)
| TFunc (ins outs : list rtype) (variadic : bool)
| TNamed (name : string) (underlying : rtype) (methods ptrMethods : list string).

(** Data carried by a value of some type. *)
Inductive payload : Type :=
| PBool (b : bool)
| PInt (z : Z)
| PFloat (bits : Z)
| PStr (s : string)
| PSlice (elems : list payload)
| PPtr (target : option payload)           (* nil pointer: [PPtr None] *)
| PIface (dyn : option (rtype * payload))  (* value of an interface type *)
| PFunc (code : option nat)                (* nil func: [PFunc None] *)
| POpaque (id : nat).

(** An [interface{}] value: nil, or a dynamic type with its data. *)
Definition iface : Type := option (rtype * payload).

(** The built-in [error] is an interface value as well. *)
Definition error : Type := iface.

(** [reflect.Value]: the zero Value, or a typed datum. *)
Inductive Value : Type :=
| zeroValue
| MkValue (typ : rtype) (data : payload).

(** *** Panics and the pure outcome monad *)

Inductive Outcome (A : Type) : Type :=
| Ret (a : A)
| Panic (v : iface).
Arguments Ret {A} a.
Arguments Panic {A} v.

Definition bindO {A B} (c : Outcome A) (k : A -> Outcome B) : Outcome B :=
  match c with
  | Ret a => k a
  | Panic v => Panic v
  end.

(** A run-time panic carrying a message. *)
Definition panicStr (msg : string) : iface := Some (TBasic String, PStr msg).

(** *** Calls: what a function body does, and the log of invocations *)

Inductive CallOutcome : Type :=
| Returns (results : list payload)
| Throws (v : iface).

(** The code of the program's functions, by code address. *)
Definition CodeTable : Type := nat -> list Value -> CallOutcome.

(** Every invocation of a function body is recorded: code address and the
    arguments the body received. *)
Definition Log : Type := list (nat * list Value).

Definition M (A : Type) : Type := Log -> Outcome A * Log.

Definition retM {A} (a : A) : M A := fun log => (Ret a, log).
Definition panicM {A} (v : iface) : M A := fun log => (Panic v, log).
Definition bindM {A B} (c : M A) (k : A -> M B) : M B :=
  fun log =>
    match c log with
    | (Ret a, log') => k a log'
    | (Panic v, log') => (Panic v, log')
    end.
Definition liftO {A} (c : Outcome A) : M A := fun log => (c, log).

(** *** Types *)

Fixpoint underlying (t : rtype) : rtype :=
  match t with
  | TNamed _ u _ _ => underlying u
  | _ => t
  end.

Fixpoint Type_Kind (t : rtype) : Kind :=
  match t with
  | TBasic k => k
  | TComposite k _ => k
  | TSlice _ => Slice
  | TPtr _ => Pointer
  | TInterface _ => Interface
  | TFunc _ _ _ => Func
  | TNamed _ u _ _ => Type_Kind u
  end.

Definition hasName (t : rtype) : bool :=
  match t with
  | TBasic _ | TNamed _ _ _ _ => true
  | _ => false
  end.

(** Type identity. *)
Fixpoint rtype_eqb (a b : rtype) : bool :=
  let fix all2 (l l' : list rtype) : bool :=
    match l, l' with
    | [], [] => true
    | x :: l, y :: l' => rtype_eqb x y && all2 l l'
    | _, _ => false
    end in
  match a, b with
  | TBasic k, TBasic k' => bool_decide (k = k')
  | TComposite k d, TComposite k' d' => bool_decide (k = k') && bool_decide (d = d')
  | TSlice e, TSlice e' => rtype_eqb e e'
  | TPtr e, TPtr e' => rtype_eqb e e'
  | TInterface ms, TInterface ms' => bool_decide (ms = ms')
  | TFunc i o v, TFunc i' o' v' => all2 i i' && all2 o o' && bool_decide (v = v')
  | TNamed n u ms pms, TNamed n' u' ms' pms' =>
      bool_decide (n = n') && rtype_eqb u u'
      && bool_decide (ms = ms') && bool_decide (pms = pms')
  | _, _ => false
  end.

(** Signature of a function type: parameters, results, variadic flag. *)
Definition funcSig (t : rtype) : option (list rtype * list rtype * bool) :=
  match underlying t with
  | TFunc ins outs v => Some (ins, outs, v)
  | _ => None
  end.

Definition Type_NumIn (t : rtype) : Outcome nat :=
  match funcSig t with
  | Some (ins, _, _) => Ret (length ins)
  | None => Panic (panicStr "reflect: NumIn of non-func type")
  end.

Definition Type_NumOut (t : rtype) : Outcome nat :=
  match funcSig t with
  | Some (_, outs, _) => Ret (length outs)
  | None => Panic (panicStr "reflect: NumOut of non-func type")
  end.

Definition Type_In (t : rtype) (i : nat) : Outcome rtype :=
  match funcSig t with
  | Some (ins, _, _) =>
      match ins !! i with
      | Some x => Ret x
      | None => Panic (panicStr "reflect: Func index out of bounds")
      end
  | None => Panic (panicStr "reflect: In of non-func type")
  end.

Definition Type_Out (t : rtype) (i : nat) : Outcome rtype :=
  match funcSig t with
  | Some (_, outs, _) =>
      match outs !! i with
      | Some x => Ret x
      | None => Panic (panicStr "reflect: Func index out of bounds")
      end
  | None => Panic (panicStr "reflect: Out of non-func type")
  end.

Definition Type_Elem (t : rtype) : Outcome rtype :=
  match underlying t with
  | TSlice e | TPtr e => Ret e
  | _ => Panic (panicStr "reflect: Elem of invalid type")
  end.

(** Method set of a type. *)
Definition methodSet (t : rtype) : list string :=
  match t with
  | TInterface ms => ms
  | TNamed _ u ms _ =>
      ms ++ match underlying u with TInterface ims => ims | _ => [] end
  | TPtr (TNamed _ u ms pms) =>
      match underlying u with
      | TInterface _ | TPtr _ => []
      | _ => ms ++ pms
      end
  | _ => []
  end.

(** [implements T V]: [V] has every method of the interface type [T]. *)
Definition implements (T V : rtype) : bool :=
  bool_decide (Type_Kind T = Interface)
  && forallb (fun m => bool_decide (m ∈ methodSet V)) (methodSet T).

Definition Type_Implements (t u : rtype) : Outcome bool :=
  if bool_decide (Type_Kind u = Interface) then Ret (implements u t)
  else Panic (panicStr "reflect: non-interface type passed to Type.Implements").

Definition directlyAssignable (T V : rtype) : bool :=
  if rtype_eqb T V then true
  else if hasName T && hasName V then false
  else if negb (bool_decide (Type_Kind T = Type_Kind V)) then false
  else rtype_eqb (underlying T) (underlying V).

Definition Type_AssignableTo (t u : rtype) : bool :=
  directlyAssignable u t || implements u t.

(** *** Values *)

Definition TypeOf (i : iface) : option rtype := fst <$> i.

Definition ValueOf (i : iface) : Value :=
  match i with
  | None => zeroValue
  | Some (t, d) => MkValue t d
  end.

Definition Value_Kind (v : Value) : Kind :=
  match v with
  | zeroValue => Invalid
  | MkValue t _ => Type_Kind t
  end.

Definition Value_Type (v : Value) : Outcome rtype :=
  match v with
  | zeroValue => Panic (panicStr "reflect: call of reflect.Value.Type on zero Value")
  | MkValue t _ => Ret t
  end.

(** [v.Interface()]: a value of interface type yields the interface value
    it holds, any other value is boxed with its own type. *)
Definition Value_Interface (v : Value) : Outcome iface :=
  match v with
  | zeroValue => Panic (panicStr "reflect: call of reflect.Value.Interface on zero Value")
  | MkValue t d =>
      match Type_Kind t, d with
      | Interface, PIface inner => Ret inner
      | _, _ => Ret (Some (t, d))
      end
  end.

(** Conversion of an argument to the parameter type on assignment. *)
Definition assignTo (x : Value) (targ : rtype) : Value :=
  match x with
  | zeroValue => zeroValue
  | MkValue xt xd =>
      match Type_Kind targ, Type_Kind xt with
      | Interface, Interface => MkValue targ xd
      | Interface, _ => MkValue targ (PIface (Some (xt, xd)))
      | _, _ => MkValue targ xd
      end
  end.

Definition assignableValue (x : Value) (targ : rtype) : bool :=
  match x with
  | zeroValue => false
  | MkValue xt _ => Type_AssignableTo xt targ
  end.

Definition dataOf (x : Value) : payload :=
  match x with
  | zeroValue => PIface None
  | MkValue _ d => d
  end.

(** The argument vector a body receives: positional parameters
    converted, the variadic rest packed into a slice. *)
Definition prepareArgs (ins : list rtype) (variadic : bool) (in_ : list Value)
  : list Value :=
  if variadic then
    let n := length ins - 1 in
    let rest := drop n in_ in
    match ins !! n with
    | Some st =>
        let elem := match underlying st with TSlice e => e | _ => st end in
        zip_with assignTo (take n in_) (take n ins)
        ++ [MkValue st (PSlice (map (fun x => dataOf (assignTo x elem)) rest))]
    | None => zip_with assignTo in_ ins
    end
  else zip_with assignTo in_ ins.

Definition argsAssignable (ins : list rtype) (variadic : bool) (in_ : list Value)
  : bool :=
  if variadic then
    let n := length ins - 1 in
    forallb (fun '(x, t) => assignableValue x t) (zip (take n in_) (take n ins))
    && match ins !! n with
       | Some st =>
           let elem := match underlying st with TSlice e => e | _ => st end in
           forallb (fun x => assignableValue x elem) (drop n in_)
       | None => true
       end
  else forallb (fun '(x, t) => assignableValue x t) (zip in_ ins).

(** Running the body at code address [id]: the invocation is logged, a
    return is typed by the declared results, a throw becomes a panic. *)
Definition invoke (code : CodeTable) (id : nat) (outs : list rtype)
    (actual : list Value) : M (list Value) :=
  fun log =>
    match code id actual with
    | Returns rs => (Ret (zip_with MkValue outs rs), (log ++ [(id, actual)])%list)
    | Throws pv => (Panic pv, (log ++ [(id, actual)])%list)
    end.

(** [v.Call(in)]. *)
Definition Value_Call (code : CodeTable) (v : Value) (in_ : list Value)
  : M (list Value) :=
  match v with
  | zeroValue => panicM (panicStr "reflect: call of reflect.Value.Call on zero Value")
  | MkValue t d =>
      match funcSig t, d with
      | Some (ins, outs, variadic), PFunc fn =>
          match fn with
          | None => panicM (panicStr "reflect.Value.Call: call of nil function")
          | Some id =>
              let n := if variadic then length ins - 1 else length ins in
              if (length in_ <? n)%nat then
                panicM (panicStr "reflect: Call with too few input arguments")
              else if negb variadic && (n <? length in_)%nat then
                panicM (panicStr "reflect: Call with too many input arguments")
              else if existsb (fun x => bool_decide (Value_Kind x = Invalid)) in_ then
                panicM (panicStr "reflect: Call using zero Value argument")
              else if negb (argsAssignable ins variadic in_) then
                panicM (panicStr "reflect: Call using value as type")
              else
                invoke code id outs (prepareArgs ins variadic in_)
          end
      | _, _ => panicM (panicStr "reflect: call of reflect.Value.Call on non-func Value")
      end
  end.

End reflect.

(** Sequencing: [let! x := c in k] in the pure outcome monad,
    [let* x := c in k] in the logging monad. *)
Notation "'let!' x ':=' c 'in' k" := (reflect.bindO c (fun x => k))
  (at level 10, x name, c at level 100, k at level 200).
Notation "'let*' x ':=' c 'in' k" := (reflect.bindM c (fun x => k))
  (at level 10, x name, c at level 100, k at level 200).

(** Run-time panics of the language itself. *)
Definition nilDereference : reflect.iface :=
  reflect.panicStr "runtime error: invalid memory address or nil pointer dereference".
Definition indexOutOfRange : reflect.iface :=
  reflect.panicStr "runtime error: index out of range".

(** [l[i]] *)
Definition index {A} (l : list A) (i : nat) : reflect.Outcome A :=
  match l !! i with
  | Some x => reflect.Ret x
  | None => reflect.Panic indexOutOfRange
  end.

(** [l[i] = x] *)
Definition store {A} (l : list A) (i : nat) (x : A) : reflect.Outcome (list A) :=
  if (i <? length l)%nat then reflect.Ret (<[i := x]> l)
  else reflect.Panic indexOutOfRange.

(** [e != nil] *)
Definition notNil (e : reflect.iface) : bool :=
  match e with
  | Some _ => true
  | None => false
  end.

(** The predeclared types the program names. *)
Definition string_t : reflect.rtype := reflect.TBasic reflect.String.
Definition error_t : reflect.rtype :=
  reflect.TNamed "error" (reflect.TInterface ["Error"]) [] [].

(** A string held in an [interface{}]. *)
Definition ofString (s : string) : reflect.iface := Some (string_t, reflect.PStr s).

(** [x.(error)]: the value and the [ok] flag. *)
Definition assertError (x : reflect.iface) : reflect.error * bool :=
  match x with
  | Some (t, d) => if reflect.implements error_t t then (x, true) else (None, false)
  | None => (None, false)
  end.

(** [x.(string)] *)
Definition assertString (x : reflect.iface) : string * bool :=
  match x with
  | Some (reflect.TBasic reflect.String, reflect.PStr s) => (s, true)
  | _ => ("", false)
  end.

(** github.com/pkg/errors *)
Module errors.

(** [*errors.fundamental]: message and stack; the message is modelled. *)
Definition fundamental : reflect.rtype :=
  reflect.TNamed "errors.fundamental"
    (reflect.TComposite reflect.Struct "struct { msg string; *stack }")
    [] ["Error"; "Format"].

Definition New (message : string) : reflect.error :=
  Some (reflect.TPtr fundamental, reflect.PPtr (Some (reflect.PStr message))).

End errors.

(* ===================================================================== *)
(** ** JobFunc *)
(* ===================================================================== *)

Module JobFunc.
Import reflect.

Record t : Type := { jobFunc : Value }.

(** The loop of [check] at index [i], with [remaining = NumIn - i]
    iterations to go. *)
Fixpoint check_args (theType : rtype) (args : list iface) (remaining i : nat)
  : Outcome error :=
  match remaining with
  | O => Ret None
  | S remaining' =>
      let! a := index args i in
      let! ti := Type_In theType i in
      if bool_decide (Value_Kind (ValueOf a) <> Type_Kind ti) then
        Ret (errors.New "the arg(s) types do not match job args types")
      else check_args theType args remaining' (S i)
  end.

(** [reflect.TypeOf(( *error)(nil)).Elem()] *)
Definition errorInterface : Outcome rtype :=
  match TypeOf (Some (TPtr error_t, PPtr None)) with
  | Some pt => Type_Elem pt
  | None => Panic nilDereference
  end.

(** [check] throws an error if the func is not valid and the args don't
    match func args. *)
Definition check (j : t) (args : list iface) : Outcome error :=
  if bool_decide (Value_Kind (jobFunc j) <> Func) then
    Ret (errors.New "jobFunc is not a function")
  else
    let! theType := Value_Type (jobFunc j) in
    let! numOut := Type_NumOut theType in
    if bool_decide (numOut <> 1%nat) then
      Ret (errors.New "jobFunc needs to return one error")
    else
      let! errorInterface := errorInterface in
      let! out0 := Type_Out theType 0 in
      let! impl := Type_Implements out0 errorInterface in
      if negb impl then
        Ret (errors.New "jobFunc return type needs to be an error")
      else
        let! numIn := Type_NumIn theType in
        if bool_decide (numIn <> length args) then
          Ret (errors.New "the number of args do not match the jobs args")
        else check_args theType args numIn 0.

(** [paramsCount] returns the number of parameters required. *)
Definition paramsCount (j : t) : Outcome nat :=
  let! ty := Value_Type (jobFunc j) in
  Type_NumIn ty.

(** [for k, param := range params { in[k] = reflect.ValueOf(param) }] *)
Fixpoint fill_in (in_ : list Value) (k : nat) (params : list iface)
  : Outcome (list Value) :=
  match params with
  | [] => Ret in_
  | param :: rest =>
      let! in' := store in_ k (ValueOf param) in
      fill_in in' (S k) rest
  end.

(** [execute] the JobFunc. *)
Definition execute (code : CodeTable) (j : t) (params : list iface) : M error :=
  let* n := liftO (paramsCount j) in
  if bool_decide (n <> length params) then
    retM (errors.New "func parameters mismatch")
  else
    let* in_ := liftO (fill_in (replicate (length params) zeroValue) 0 params) in
    let* res := Value_Call code (jobFunc j) in_ in
    if bool_decide (length res <> 1%nat) then
      retM (errors.New "func does not return a value")
    else
      let* r0 := liftO (index res 0) in
      let* x := liftO (Value_Interface r0) in
      let '(err, ok) := assertError x in
      if ok && notNil err then retM err else retM None.

End JobFunc.

(** [NewJobFunc] *)
Definition NewJobFunc (theFunc : reflect.iface) : JobFunc.t :=
  {| JobFunc.jobFunc := reflect.ValueOf theFunc |}.

(* ===================================================================== *)
(** ** JobContainer *)
(* ===================================================================== *)

Module JobContainer.
Import reflect.

(** [time.Duration] and [int] are 64-bit integers; the setters store what
    they are given and compute nothing. *)
Record t : Type := {
  jobFunc : option JobFunc.t;
  retryTimeout : Z;
  retryOnErrorLimit : Z;
  retryOnTimeoutLimit : Z
}.

(** A [*JobContainer] is nil or an address into the heap of descriptors. *)
Definition ptr : Type := option nat.
Abbreviation heap := (gmap nat t).

(** [*j], panicking on nil. *)
Definition deref (j : ptr) (h : heap) : Outcome t :=
  match j with
  | Some a =>
      match h !! a with
      | Some c => Ret c
      | None => Panic nilDereference
      end
  | None => Panic nilDereference
  end.

(** [*j = c] *)
Definition assign (j : ptr) (c : t) (h : heap) : heap :=
  match j with
  | Some a => <[a := c]> h
  | None => h
  end.

(** The three field assignments. *)
Definition set_retryTimeout (timeout : Z) (c : t) : t :=
  {| jobFunc := jobFunc c;
     retryTimeout := timeout;
     retryOnErrorLimit := retryOnErrorLimit c;
     retryOnTimeoutLimit := retryOnTimeoutLimit c |}.

Definition set_retryOnErrorLimit (limit : Z) (c : t) : t :=
  {| jobFunc := jobFunc c;
     retryTimeout := retryTimeout c;
     retryOnErrorLimit := limit;
     retryOnTimeoutLimit := retryOnTimeoutLimit c |}.

Definition set_retryOnTimeoutLimit (limit : Z) (c : t) : t :=
  {| jobFunc := jobFunc c;
     retryTimeout := retryTimeout c;
     retryOnErrorLimit := retryOnErrorLimit c;
     retryOnTimeoutLimit := limit |}.

(** [RetryTimeout] set the job default timeout. *)
Definition RetryTimeout (j : ptr) (timeout : Z) (h : heap) : Outcome ptr * heap :=
  match deref j h with
  | Ret c => (Ret j, assign j (set_retryTimeout timeout c) h)
  | Panic v => (Panic v, h)
  end.

(** [RetryErrorLimit] set the job default number of retries on error. *)
Definition RetryErrorLimit (j : ptr) (limit : Z) (h : heap) : Outcome ptr * heap :=
  match deref j h with
  | Ret c => (Ret j, assign j (set_retryOnErrorLimit limit c) h)
  | Panic v => (Panic v, h)
  end.

(** [RetryTimeoutLimit] set the job default number of retries on timeout. *)
Definition RetryTimeoutLimit (j : ptr) (limit : Z) (h : heap) : Outcome ptr * heap :=
  match deref j h with
  | Ret c => (Ret j, assign j (set_retryOnTimeoutLimit limit c) h)
  | Panic v => (Panic v, h)
  end.

(** A chained call [f(x)] on the descriptor a previous call returned. *)
Definition andThen (c : Outcome ptr * heap) (f : ptr -> heap -> Outcome ptr * heap)
  : Outcome ptr * heap :=
  match c with
  | (Ret j, h) => f j h
  | (Panic v, h) => (Panic v, h)
  end.

(** Three chained calls, as in [j.F(x).G(y).K(z)]. *)
Definition chain3 (f g k : ptr -> heap -> Outcome ptr * heap) (j : ptr) (h : heap)
  : Outcome ptr * heap :=
  andThen (andThen (f j h) g) k.

End JobContainer.

(* ===================================================================== *)
(** ** Args *)
(* ===================================================================== *)

(** The library functions [Args] calls, taken as parameters:
    - [gob_Encode p]: what [gob.NewEncoder(&buf).Encode(p)] writes to the
      empty buffer [buf], and the error it returns;
    - [gob_Decode r p]: for [gob.NewDecoder(r).Decode(&p)] on a reader over
      the bytes [r], the content of [p] afterwards and the error returned;
    - [fmt_Sprint]: [fmt.Sprint]. *)
Record Libraries : Type := {
  gob_Encode : list reflect.iface -> list byte * reflect.error;
  gob_Decode : list byte -> list reflect.iface -> list reflect.iface * reflect.error;
  fmt_Sprint : list reflect.iface -> string
}.

Module Args.
Import reflect.

(** [type Args []interface{}] *)
Definition t : Type := list iface.

(** [schema.String] *)
Definition schema_String : string := "string".

Definition GormDataType (p : t) : string := schema_String.

(** [Scan] scan value into []: the receiver [*p] before, and the pair of
    [*p] afterwards and the error. *)
Definition Scan (lib : Libraries) (p : t) (value : iface) : t * error :=
  let '(data, ok) := assertString value in
  if negb ok then
    (p, errors.New (fmt_Sprint lib [ofString "failed to unmarshal params value:"; value]))
  else
    let r := String.list_byte_of_string data in
    gob_Decode lib r p.

(** [Value] return params value, implement driver.Valuer interface. *)
Definition Value (lib : Libraries) (p : t) : iface * error :=
  if bool_decide (length p = 0%nat) then (None, None)
  else
    let '(buf, _) := gob_Encode lib p in
    (ofString (String.string_of_list_byte buf), None).

End Args.

(** The contract of the codec on a set of supported elements: a non-empty
    list of supported elements is encoded without error, and decoding the
    bytes written stores that list in the receiver, whatever it held. *)
Definition gob_roundtrips (lib : Libraries) (supported : reflect.iface -> Prop) : Prop :=
  forall a p : Args.t,
    a <> [] -> Forall supported a ->
    exists buf,
      gob_Encode lib a = (buf, None) /\ gob_Decode lib buf p = (a, None).

(* ===================================================================== *)
(** ** Sample handlers and a reference codec *)
(* ===================================================================== *)

Module Samples.
Import reflect.

Definition int_t : rtype := TBasic Int.
Definition bool_t : rtype := TBasic Bool.

Definition ofInt (z : Z) : iface := Some (int_t, PInt z).
Definition ofBool (b : bool) : iface := Some (bool_t, PBool b).

(** Code addresses:
    0: [func(a int, b string) error { return nil }]
    1: [func(to string, retries int) error { return errors.New("smtp down") }]
    2: [func(a int) error { panic("boom") }] *)
Definition code : CodeTable :=
  fun id _ =>
    match id with
    | 0%nat => Returns [PIface None]
    | 1%nat => Returns [PIface (errors.New "smtp down")]
    | 2%nat => Throws (panicStr "boom")
    | _ => Returns []
    end.

Definition okHandler : iface :=
  Some (TFunc [int_t; string_t] [error_t] false, PFunc (Some 0%nat)).
Definition sendEmail : iface :=
  Some (TFunc [string_t; int_t] [error_t] false, PFunc (Some 1%nat)).
Definition panicking : iface :=
  Some (TFunc [int_t] [error_t] false, PFunc (Some 2%nat)).

(** [func(a int) int], [func(a int) (int, error)] and [func()]: shapes
    that [check] refuses. *)
Definition returnsInt : iface :=
  Some (TFunc [int_t] [int_t] false, PFunc (Some 3%nat)).
Definition returnsTwo : iface :=
  Some (TFunc [int_t] [int_t; error_t] false, PFunc (Some 3%nat)).
Definition returnsNothing : iface :=
  Some (TFunc [] [] false, PFunc (Some 3%nat)).

End Samples.

(** A small self-delimiting codec for booleans, integers and strings, and a
    [Sprint] for strings and nil: an instance of [Libraries] on which the
    contract [gob_roundtrips] holds. *)
Module RefCodec.

(** Binary digits, least significant first, closed by [x02]. *)
Fixpoint enc_pos (p : positive) : list byte :=
  match p with
  | xH => [x02]
  | xO q => x00 :: enc_pos q
  | xI q => x01 :: enc_pos q
  end.

Fixpoint dec_pos (bs : list byte) : option (positive * list byte) :=
  match bs with
  | x02 :: r => Some (xH, r)
  | x00 :: r => match dec_pos r with Some (q, r') => Some (xO q, r') | None => None end
  | x01 :: r => match dec_pos r with Some (q, r') => Some (xI q, r') | None => None end
  | _ => None
  end.

Definition enc_Z (z : Z) : list byte :=
  match z with
  | Z0 => [x00]
  | Zpos p => x01 :: enc_pos p
  | Zneg p => x02 :: enc_pos p
  end.

Definition dec_Z (bs : list byte) : option (Z * list byte) :=
  match bs with
  | x00 :: r => Some (Z0, r)
  | x01 :: r => match dec_pos r with Some (p, r') => Some (Zpos p, r') | None => None end
  | x02 :: r => match dec_pos r with Some (p, r') => Some (Zneg p, r') | None => None end
  | _ => None
  end.

(** Characters, each announced by [x01], closed by [x00]. *)
Fixpoint enc_str (s : string) : list byte :=
  match s with
  | EmptyString => [x00]
  | String.String c r => x01 :: Ascii.byte_of_ascii c :: enc_str r
  end.

Fixpoint dec_str (bs : list byte) : option (string * list byte) :=
  match bs with
  | x00 :: r => Some (EmptyString, r)
  | x01 :: c :: r =>
      match dec_str r with
      | Some (s, r') => Some (String.String (Ascii.ascii_of_byte c) s, r')
      | None => None
      end
  | _ => None
  end.

Definition enc_elem (x : reflect.iface) : option (list byte) :=
  match x with
  | Some (reflect.TBasic reflect.Bool, reflect.PBool b) =>
      Some [x01; if b then x01 else x00]
  | Some (reflect.TBasic reflect.Int, reflect.PInt z) => Some (x02 :: enc_Z z)
  | Some (reflect.TBasic reflect.String, reflect.PStr s) => Some (x03 :: enc_str s)
  | _ => None
  end.

Definition dec_elem (bs : list byte) : option (reflect.iface * list byte) :=
  match bs with
  | x01 :: x00 :: r => Some (Samples.ofBool false, r)
  | x01 :: x01 :: r => Some (Samples.ofBool true, r)
  | x02 :: r => match dec_Z r with Some (z, r') => Some (Samples.ofInt z, r') | None => None end
  | x03 :: r => match dec_str r with Some (s, r') => Some (ofString s, r') | None => None end
  | _ => None
  end.

Fixpoint enc_list (l : list reflect.iface) : option (list byte) :=
  match l with
  | [] => Some []
  | x :: l' =>
      match enc_elem x, enc_list l' with
      | Some b, Some bs => Some (b ++ bs)%list
      | _, _ => None
      end
  end.

Fixpoint dec_list (fuel : nat) (bs : list byte) : option (list reflect.iface) :=
  match bs with
  | [] => Some []
  | _ =>
      match fuel with
      | O => None
      | S fuel' =>
          match dec_elem bs with
          | Some (x, r) =>
              match dec_list fuel' r with
              | Some l => Some (x :: l)
              | None => None
              end
          | None => None
          end
      end
  end.

Definition supported (x : reflect.iface) : Prop := is_Some (enc_elem x).

Definition Encode (p : list reflect.iface) : list byte * reflect.error :=
  match enc_list p with
  | Some bs => (bs, None)
  | None => ([], errors.New "gob: type not registered for interface")
  end.

Definition Decode (r : list byte) (p : list reflect.iface)
  : list reflect.iface * reflect.error :=
  match r with
  | [] => (p, errors.New "EOF")
  | _ =>
      match dec_list (length r) r with
      | Some l => (l, None)
      | None => (p, errors.New "gob: bad data")
      end
  end.

Definition Sprint (xs : list reflect.iface) : string :=
  String.concat ""
    (map (fun x =>
            match x with
            | Some (reflect.TBasic reflect.String, reflect.PStr s) => s
            | None => "<nil>"
            | Some _ => "<value>"
            end) xs).

Definition lib : Libraries :=
  {| gob_Encode := Encode; gob_Decode := Decode; fmt_Sprint := Sprint |}.

End RefCodec.

(* ===================================================================== *)
(** ** Vocabulary of the specification *)
(* ===================================================================== *)

Section Vocabulary.
Import reflect.

(** Some argument's run-time kind differs from the kind of the parameter
    declared at its position. *)
Definition kind_mismatch (ins : list rtype) (args : list iface) : Prop :=
  exists (i : nat) (a : iface) (ti : rtype),
    args !! i = Some a /\ ins !! i = Some ti
    /\ Value_Kind (ValueOf a) <> Type_Kind ti.

Definition kinds_agree_from (ins : list rtype) (args : list iface) (i : nat) : Prop :=
  forall (k : nat) (a : iface) (tk : rtype),
    i <= k -> args !! k = Some a -> ins !! k = Some tk ->
    Value_Kind (ValueOf a) = Type_Kind tk.

(** The bound value is a function with the given signature. *)
Definition bound_to (j : JobFunc.t) (ty : rtype) (d : payload)
    (ins outs : list rtype) (variadic : bool) : Prop :=
  JobFunc.jobFunc j = MkValue ty d /\ funcSig ty = Some (ins, outs, variadic).

(** An argument list the call accepts: as many arguments as declared
    parameters, none of them nil, each assignable to the type declared
    at its position. *)
Definition well_shaped (ins : list rtype) (variadic : bool) (params : list iface)
  : Prop :=
  length params = length ins
  /\ Forall (fun a => Value_Kind (ValueOf a) <> Invalid) params
  /\ argsAssignable ins variadic (map ValueOf params) = true.

(** The arguments the body of the callable receives. *)
Definition received (ins : list rtype) (variadic : bool) (params : list iface)
  : list Value :=
  prepareArgs ins variadic (map ValueOf params).

(** [check] fails: it returns a non-nil error. *)
Definition fails (r : Outcome error) : Prop :=
  exists e : error, r = Ret e /\ notNil e = true.

(** The kind [check] compares against the declared parameter kind. *)
Definition kindOf (a : iface) : Kind := Value_Kind (ValueOf a).

(** A value held in an [interface{}] with exactly the given type. *)
Definition typed (ty : rtype) (d : payload) : iface := Some (ty, d).

End Vocabulary.

(** Chains of configuration calls on a descriptor, of any length, as in
    [j.RetryTimeout(a).RetryErrorLimit(b). ...]. *)
Module Chain.
Import reflect.
Import JobContainer.

Inductive call : Type :=
| CallRetryTimeout (timeout : Z)
| CallRetryErrorLimit (limit : Z)
| CallRetryTimeoutLimit (limit : Z).

Definition perform (c : call) (j : ptr) (h : heap) : Outcome ptr * heap :=
  match c with
  | CallRetryTimeout timeout => RetryTimeout j timeout h
  | CallRetryErrorLimit limit => RetryErrorLimit j limit h
  | CallRetryTimeoutLimit limit => RetryTimeoutLimit j limit h
  end.

(** Each call is made on the pointer the previous one returned. *)
Fixpoint run (calls : list call) (j : ptr) (h : heap) : Outcome ptr * heap :=
  match calls with
  | [] => (Ret j, h)
  | c :: rest => andThen (perform c j h) (run rest)
  end.

(** The values a chain supplies for each field, in order. *)
Definition timeouts (calls : list call) : list Z :=
  omap (fun c => match c with CallRetryTimeout x => Some x | _ => None end) calls.
Definition errorLimits (calls : list call) : list Z :=
  omap (fun c => match c with CallRetryErrorLimit x => Some x | _ => None end) calls.
Definition timeoutLimits (calls : list call) : list Z :=
  omap (fun c => match c with CallRetryTimeoutLimit x => Some x | _ => None end) calls.

(** The descriptor a chain leaves: every field holds the last value the
    chain supplied for it, or what it held when none was. *)
Definition configured (calls : list call) (c : t) : t :=
  {| jobFunc := jobFunc c;
     retryTimeout := default (retryTimeout c) (last (timeouts calls));
     retryOnErrorLimit := default (retryOnErrorLimit c) (last (errorLimits calls));
     retryOnTimeoutLimit := default (retryOnTimeoutLimit c) (last (timeoutLimits calls)) |}.

End Chain.

(** Further handlers, for the instances of the later theorems. *)
Module MoreSamples.
Import reflect.
Import Samples.

(** [type UserID int] *)
Definition userID_t : rtype := TNamed "UserID" int_t [] [].
Definition intSlice_t : rtype := TSlice int_t.
Definition bytes_t : rtype := TSlice (TBasic Uint8).

(** Code addresses:
    0: [func(n int) int { return 5 }]
    1: [func() { }]
    2: [func(xs ...int) error { return nil }]
    3: [func(id int) error { return nil }] *)
Definition code : CodeTable :=
  fun id _ =>
    match id with
    | 0%nat => Returns [PInt 5]
    | 1%nat => Returns []
    | _ => Returns [PIface None]
    end.

Definition five : iface := Some (TFunc [int_t] [int_t] false, PFunc (Some 0%nat)).
Definition noResult : iface := Some (TFunc [] [] false, PFunc (Some 1%nat)).
Definition sum : iface := Some (TFunc [intSlice_t] [error_t] true, PFunc (Some 2%nat)).
Definition byId : iface := Some (TFunc [int_t] [error_t] false, PFunc (Some 3%nat)).

End MoreSamples.

(* ===================================================================== *)
(** ** Facts about the run-time model *)
(* ===================================================================== *)

Section ReflectFacts.
Import reflect.

Lemma underlying_func_kind (t : rtype) ins outs v :
  underlying t = TFunc ins outs v -> Type_Kind t = Func.
Proof.
  induction t; simpl; intros H; try discriminate; auto.
Qed.

Lemma funcSig_kind (t : rtype) sig : funcSig t = Some sig -> Type_Kind t = Func.
Proof.
  unfold funcSig. destruct (underlying t) eqn:E; intros H; try discriminate.
  eapply underlying_func_kind; eauto.
Qed.

Lemma errorInterface_is_error : JobFunc.errorInterface = Ret error_t.
Proof. reflexivity. Qed.

Lemma Implements_error (t : rtype) :
  Type_Implements t error_t = Ret (implements error_t t).
Proof. reflexivity. Qed.

Lemma index_lookup {A} (l : list A) (i : nat) (x : A) :
  l !! i = Some x -> index l i = Ret x.
Proof. unfold index. intros ->. reflexivity. Qed.

Lemma Type_In_lookup (t : rtype) ins outs v (i : nat) (x : rtype) :
  funcSig t = Some (ins, outs, v) -> ins !! i = Some x -> Type_In t i = Ret x.
Proof. unfold Type_In. intros -> ->. reflexivity. Qed.

Lemma notNil_New (msg : string) : notNil (errors.New msg) = true.
Proof. reflexivity. Qed.

(** Identical types have the same kind. *)
Lemma rtype_eqb_kind (a b : rtype) : rtype_eqb a b = true -> Type_Kind a = Type_Kind b.
Proof.
  revert b. induction a as [k|k descr|e IHe|e IHe|ms|ins outs v|n u IHu ms pms];
    intros b; destruct b; simpl; try discriminate; auto.
  - intros H. apply bool_decide_eq_true in H. exact H.
  - intros H. apply andb_prop in H as [H _]. apply bool_decide_eq_true in H. exact H.
  - intros H. apply andb_prop in H as [H _]. apply andb_prop in H as [H _].
    apply andb_prop in H as [_ H]. apply IHu. exact H.
Qed.

(** A value of one kind is not assignable to a type of another kind,
    unless that type is an interface type. *)
Lemma kind_mismatch_not_assignable (xt targ : rtype) :
  Type_Kind xt <> Type_Kind targ ->
  Type_Kind targ <> Interface ->
  Type_AssignableTo xt targ = false.
Proof.
  intros Hk Hi. unfold Type_AssignableTo, directlyAssignable, implements.
  destruct (rtype_eqb targ xt) eqn:E.
  { apply rtype_eqb_kind in E. congruence. }
  rewrite (bool_decide_false (Type_Kind targ = Interface)) by assumption.
  rewrite (bool_decide_false (Type_Kind targ = Type_Kind xt)) by congruence.
  destruct (hasName targ && hasName xt); reflexivity.
Qed.

Lemma forallb_zip_false {A B} (f : A * B -> bool) (l1 : list A) (l2 : list B)
    (i : nat) (x : A) (y : B) :
  l1 !! i = Some x -> l2 !! i = Some y -> f (x, y) = false ->
  forallb f (zip l1 l2) = false.
Proof.
  revert l2 i. induction l1 as [|x1 l1 IH]; intros l2 i H1 H2 Hf; [discriminate|].
  destruct l2 as [|y1 l2]; [discriminate|].
  destruct i as [|i]; simpl in *.
  - injection H1 as ->. injection H2 as ->. rewrite Hf. reflexivity.
  - rewrite (IH l2 i H1 H2 Hf). apply andb_false_r.
Qed.

End ReflectFacts.

(* ===================================================================== *)
(** ** JobFunc.check *)
(* ===================================================================== *)

Section Check.
Import reflect.

(** The loop returns nil when all remaining positions agree, and the
    mismatch error as soon as one does not; it never indexes out of
    range. *)
Lemma check_args_spec (ty : rtype) ins outs v (args : list iface) :
  funcSig ty = Some (ins, outs, v) ->
  length args = length ins ->
  forall remaining i : nat,
    i + remaining = length ins ->
    (JobFunc.check_args ty args remaining i = Ret None
     /\ kinds_agree_from ins args i)
    \/ (JobFunc.check_args ty args remaining i
        = Ret (errors.New "the arg(s) types do not match job args types")
        /\ kind_mismatch ins args).
Proof.
  intros Hsig Hlen remaining.
  induction remaining as [|r IH]; intros i Hi; simpl.
  - left. split; [reflexivity|].
    intros k a tk Hk Ha _. apply lookup_lt_Some in Ha. lia.
  - destruct (lookup_lt_is_Some_2 args i) as [a Ha]; [lia|].
    destruct (lookup_lt_is_Some_2 ins i) as [ti Hti]; [lia|].
    rewrite (index_lookup _ _ _ Ha). simpl.
    rewrite (Type_In_lookup _ _ _ _ _ _ Hsig Hti). simpl.
    case_bool_decide as Hk.
    + right. split; [reflexivity|]. exists i, a, ti. auto.
    + destruct (IH (S i)) as [[-> Hag]|[-> Hmis]]; [lia| |].
      * left. split; [reflexivity|].
        intros k a' tk Hle Ha' Htk.
        destruct (decide (k = i)) as [->|Hne].
        -- rewrite Ha in Ha'. rewrite Hti in Htk.
           injection Ha' as <-. injection Htk as <-.
           destruct (decide (Value_Kind (ValueOf a) = Type_Kind ti)); [auto|contradiction].
        -- apply (Hag k); auto. lia.
      * right. split; [reflexivity|assumption].
Qed.

End Check.

Section CheckClaims.
Import reflect.

(** C3.  For a bound callable that is function-shaped, with exactly one
    return value whose type implements [error], and [n] declared
    parameters: [check] fails (returns a non-nil error) if and only if
    [len(args) != n] or some argument's run-time kind differs from the
    kind of the corresponding declared parameter; otherwise it returns
    nil. *)
Theorem check_fails_iff_shape_mismatch
    (j : JobFunc.t) (args : list iface)
    (ty : rtype) (d : payload) (ins : list rtype) (out : rtype) (variadic : bool) :
  bound_to j ty d ins [out] variadic ->
  implements error_t out = true ->
  (fails (JobFunc.check j args)
   <-> length args <> length ins \/ kind_mismatch ins args)
  /\ (~ (length args <> length ins \/ kind_mismatch ins args)
      -> JobFunc.check j args = Ret None).
Proof.
  intros [Hj Hsig] Himpl.
  unfold JobFunc.check. rewrite Hj. simpl.
  rewrite (funcSig_kind _ _ Hsig).
  rewrite bool_decide_false by (intros H; apply H; reflexivity).
  unfold Type_NumOut, Type_Out, Type_NumIn. rewrite Hsig. simpl.
  rewrite Himpl. simpl.
  case_bool_decide as Hlen.
  - split.
    + split; [intros _; left; congruence|].
      intros _. eexists. split; reflexivity.
    + intros Hn. exfalso. apply Hn. left. congruence.
  - assert (Hlen' : length args = length ins).
    { destruct (decide (length ins = length args)); [congruence|contradiction]. }
    destruct (check_args_spec ty ins [out] variadic args Hsig Hlen' (length ins) 0)
      as [[-> Hag]|[-> Hmis]]; [lia| |].
    + split; [|reflexivity].
      split.
      * intros (e & He & Hnn). injection He as <-. discriminate.
      * intros [Hne|(i & a & ti & Ha & Hti & Hk)]; [contradiction|].
        exfalso. apply Hk. apply (Hag i); auto. lia.
    + split.
      * split; [intros _; right; assumption|].
        intros _. eexists. split; reflexivity.
      * intros Hn. exfalso. apply Hn. right. assumption.
Qed.

(** C4.  When the bound value is not a function, or is a function that
    does not declare exactly one return value, or whose single return
    type does not implement [error], [check] returns a non-nil error for
    every argument list. *)
Theorem check_rejects_ill_shaped_callable (j : JobFunc.t) (args : list iface) :
  (Value_Kind (JobFunc.jobFunc j) <> Func
   \/ (exists ty d ins outs variadic,
         bound_to j ty d ins outs variadic
         /\ (length outs <> 1%nat
             \/ exists out, outs = [out] /\ implements error_t out = false))) ->
  fails (JobFunc.check j args).
Proof.
  assert (Hnew : forall msg, fails (Ret (errors.New msg))).
  { intros msg. eexists. split; reflexivity. }
  intros [Hk|(ty & d & ins & outs & variadic & [Hj Hsig] & Hout)].
  - unfold JobFunc.check. rewrite bool_decide_true by assumption. apply Hnew.
  - unfold JobFunc.check. rewrite Hj. simpl.
    rewrite (funcSig_kind _ _ Hsig).
    rewrite bool_decide_false by (intros H; apply H; reflexivity).
    unfold Type_NumOut, Type_Out. rewrite Hsig. simpl.
    destruct Hout as [Hn|(out & -> & Himpl)].
    + rewrite bool_decide_true by assumption. apply Hnew.
    + simpl. rewrite Himpl. simpl. apply Hnew.
Qed.

End CheckClaims.

(* ===================================================================== *)
(** ** JobFunc.execute *)
(* ===================================================================== *)

Section Execute.
Import reflect.
Variable code : CodeTable.

Lemma fill_in_app (done : list Value) (params : list iface) :
  JobFunc.fill_in (done ++ replicate (length params) zeroValue) (length done) params
  = Ret (done ++ map ValueOf params).
Proof.
  revert done. induction params as [|a rest IH]; intros done; simpl.
  - reflexivity.
  - unfold store. rewrite length_app. simpl. rewrite length_replicate.
    destruct (Nat.ltb_spec (length done) (length done + S (length rest))) as [_|H];
      [|lia].
    simpl. rewrite insert_app_r_alt by lia.
    replace (length done - length done) with 0 by lia. simpl.
    specialize (IH (done ++ [ValueOf a])).
    rewrite length_app in IH. simpl in IH.
    rewrite Nat.add_1_r in IH.
    rewrite <- !app_assoc in IH. simpl in IH. exact IH.
Qed.

Lemma fill_in_spec (params : list iface) :
  JobFunc.fill_in (replicate (length params) zeroValue) 0 params
  = Ret (map ValueOf params).
Proof. exact (fill_in_app [] params). Qed.

Lemma paramsCount_bound (j : JobFunc.t) ty d ins outs variadic :
  bound_to j ty d ins outs variadic -> JobFunc.paramsCount j = Ret (length ins).
Proof.
  intros [Hj Hsig]. unfold JobFunc.paramsCount. rewrite Hj. simpl.
  unfold Type_NumIn. rewrite Hsig. reflexivity.
Qed.

(** With matching arity [execute] is the call followed by the
    inspection of its results. *)
Lemma execute_calls (j : JobFunc.t) ty d ins outs variadic (params : list iface) (log : Log) :
  bound_to j ty d ins outs variadic ->
  length params = length ins ->
  JobFunc.execute code j params log
  = (let* res := Value_Call code (JobFunc.jobFunc j) (map ValueOf params) in
     if bool_decide (length res <> 1%nat) then
       retM (errors.New "func does not return a value")
     else
       let* r0 := liftO (index res 0) in
       let* x := liftO (Value_Interface r0) in
       let '(err, ok) := assertError x in
       if ok && notNil err then retM err else retM None) log.
Proof.
  intros Hb Hlen. unfold JobFunc.execute.
  unfold bindM at 1. unfold liftO at 1.
  rewrite (paramsCount_bound _ _ _ _ _ _ Hb).
  rewrite bool_decide_false by (intros H; apply H; congruence).
  unfold bindM at 1. unfold liftO at 1.
  rewrite fill_in_spec. reflexivity.
Qed.

Lemma no_zero_argument (params : list iface) :
  Forall (fun a => Value_Kind (ValueOf a) <> Invalid) params ->
  existsb (fun x => bool_decide (Value_Kind x = Invalid)) (map ValueOf params) = false.
Proof.
  induction 1 as [|a rest Ha _ IH]; simpl; [reflexivity|].
  rewrite bool_decide_false by assumption. exact IH.
Qed.

(** On a well-shaped argument list [Call] passes its checks and runs the
    body. *)
Lemma Call_invokes ty ins outs variadic (id : nat) (params : list iface) :
  funcSig ty = Some (ins, outs, variadic) ->
  well_shaped ins variadic params ->
  Value_Call code (MkValue ty (PFunc (Some id))) (map ValueOf params)
  = invoke code id outs (received ins variadic params).
Proof.
  intros Hsig (Hlen & Hnz & Hasg). unfold Value_Call. rewrite Hsig.
  rewrite length_map, Hlen.
  assert (Hfew : (length ins <? (if variadic then length ins - 1 else length ins))%nat = false).
  { apply Nat.ltb_ge. destruct variadic; lia. }
  assert (Hmany : negb variadic
                  && ((if variadic then length ins - 1 else length ins) <? length ins)%nat
                  = false).
  { destruct variadic; simpl; [reflexivity|]. apply Nat.ltb_ge. lia. }
  cbv zeta. rewrite Hfew, Hmany.
  rewrite (no_zero_argument _ Hnz), Hasg. reflexivity.
Qed.

(** [execute] on a well-shaped argument list: the body runs once, and
    what it does decides the outcome. *)
Lemma execute_invokes (j : JobFunc.t) ty ins outs variadic (id : nat)
    (params : list iface) (log : Log) :
  bound_to j ty (PFunc (Some id)) ins outs variadic ->
  well_shaped ins variadic params ->
  JobFunc.execute code j params log
  = (let* res := invoke code id outs (received ins variadic params) in
     if bool_decide (length res <> 1%nat) then
       retM (errors.New "func does not return a value")
     else
       let* r0 := liftO (index res 0) in
       let* x := liftO (Value_Interface r0) in
       let '(err, ok) := assertError x in
       if ok && notNil err then retM err else retM None) log.
Proof.
  intros Hb Hws.
  rewrite (execute_calls _ _ _ _ _ _ _ _ Hb) by apply Hws.
  destruct Hb as [Hj Hsig]. rewrite Hj.
  unfold bindM at 1. rewrite (Call_invokes _ _ _ _ _ _ Hsig Hws).
  reflexivity.
Qed.

(** C5.  For a JobFunc bound to a function with [n] declared parameters:
    [execute] on a list of another length returns the error
    "func parameters mismatch" and the callable is not invoked (the log
    of invocations is unchanged); on a well-shaped list, when the
    callable returns a nil error, [execute] returns nil, the callable
    having been invoked once with these arguments. *)
Theorem execute_arity_guard_and_success
    (j : JobFunc.t) ty d ins outs variadic :
  bound_to j ty d ins outs variadic ->
  (forall (params : list iface) (log : Log),
      length params <> length ins ->
      JobFunc.execute code j params log
      = (Ret (errors.New "func parameters mismatch"), log))
  /\ (forall (params : list iface) (log : Log) (id : nat) (out : rtype) (res : payload),
        d = PFunc (Some id) -> outs = [out] ->
        well_shaped ins variadic params ->
        code id (received ins variadic params) = Returns [res] ->
        Value_Interface (MkValue out res) = Ret None ->
        JobFunc.execute code j params log
        = (Ret None, log ++ [(id, received ins variadic params)])).
Proof.
  intros Hb. split.
  - intros params log Hlen. unfold JobFunc.execute.
    unfold bindM at 1. unfold liftO at 1.
    rewrite (paramsCount_bound _ _ _ _ _ _ Hb).
    rewrite bool_decide_true by congruence. reflexivity.
  - intros params log id out res -> -> Hws Hcode Hnil.
    rewrite (execute_invokes _ _ _ _ _ _ _ _ Hb Hws).
    unfold bindM at 1. unfold invoke. rewrite Hcode.
    cbn [zip_with length].
    rewrite bool_decide_false by (intros H; apply H; reflexivity).
    unfold bindM, liftO.
    change (index [MkValue out res] 0) with (@Ret Value (MkValue out res)).
    cbv beta iota. rewrite Hnil. reflexivity.
Qed.

(** C6.  When the bound callable, invoked by [execute] with the supplied
    arguments, returns a non-nil error value, [execute] returns exactly
    that value. *)
Theorem execute_returns_the_callable_error
    (j : JobFunc.t) ty ins out variadic (id : nat)
    (params : list iface) (log : Log) (res : payload) (et : rtype) (ed : payload) :
  bound_to j ty (PFunc (Some id)) ins [out] variadic ->
  well_shaped ins variadic params ->
  code id (received ins variadic params) = Returns [res] ->
  Value_Interface (MkValue out res) = Ret (Some (et, ed)) ->
  implements error_t et = true ->
  JobFunc.execute code j params log
  = (Ret (Some (et, ed)), log ++ [(id, received ins variadic params)]).
Proof.
  intros Hb Hws Hcode Hval Himpl.
  rewrite (execute_invokes _ _ _ _ _ _ _ _ Hb Hws).
  unfold bindM at 1. unfold invoke. rewrite Hcode.
  cbn [zip_with length].
  rewrite bool_decide_false by (intros H; apply H; reflexivity).
  unfold bindM, liftO.
  change (index [MkValue out res] 0) with (@Ret Value (MkValue out res)).
  cbv beta iota. rewrite Hval.
  unfold assertError. rewrite Himpl. reflexivity.
Qed.

(** C7, as the code has it.  When the bound callable panics during
    [execute], [execute] panics with the same value: the panic reaches
    the caller of [execute] as a panic, neither swallowed nor turned into
    an error result. *)
Theorem execute_propagates_panic
    (j : JobFunc.t) ty ins outs variadic (id : nat)
    (params : list iface) (log : Log) (pv : iface) :
  bound_to j ty (PFunc (Some id)) ins outs variadic ->
  well_shaped ins variadic params ->
  code id (received ins variadic params) = Throws pv ->
  JobFunc.execute code j params log
  = (Panic pv, log ++ [(id, received ins variadic params)]).
Proof.
  intros Hb Hws Hcode.
  rewrite (execute_invokes _ _ _ _ _ _ _ _ Hb Hws).
  unfold bindM at 1. unfold invoke. rewrite Hcode. reflexivity.
Qed.

(** Arguments of the right number, none nil, one of them not assignable
    to its parameter: [Call] panics before the body runs, and so does
    [execute]. *)
Lemma execute_panics_unassignable
    (j : JobFunc.t) ty ins outs variadic (id : nat)
    (params : list iface) (log : Log) :
  bound_to j ty (PFunc (Some id)) ins outs variadic ->
  length params = length ins ->
  Forall (fun a => Value_Kind (ValueOf a) <> Invalid) params ->
  argsAssignable ins variadic (map ValueOf params) = false ->
  JobFunc.execute code j params log
  = (Panic (panicStr "reflect: Call using value as type"), log).
Proof.
  intros Hb Hlen Hnz Hasg.
  rewrite (execute_calls _ _ _ _ _ _ _ _ Hb Hlen).
  destruct Hb as [Hj Hsig]. rewrite Hj.
  unfold bindM at 1. unfold Value_Call. rewrite Hsig.
  rewrite length_map, Hlen.
  assert (Hfew : (length ins <? (if variadic then length ins - 1 else length ins))%nat = false).
  { apply Nat.ltb_ge. destruct variadic; lia. }
  assert (Hmany : negb variadic
                  && ((if variadic then length ins - 1 else length ins) <? length ins)%nat
                  = false).
  { destruct variadic; simpl; [reflexivity|]. apply Nat.ltb_ge. lia. }
  cbv zeta. rewrite Hfew, Hmany.
  rewrite (no_zero_argument _ Hnz), Hasg. reflexivity.
Qed.

(** X17, the general fact behind C9.  For a function that is not variadic, a
    list of the declared length in which some argument's kind differs from
    the kind of its parameter, that parameter not being of interface type:
    [execute] panics and the callable is not invoked. *)
Lemma execute_panics_on_mismatched_kind
    (j : JobFunc.t) ty ins outs (id : nat) (params : list iface) (log : Log)
    (i : nat) (a : iface) (ti : rtype) :
  bound_to j ty (PFunc (Some id)) ins outs false ->
  length params = length ins ->
  params !! i = Some a -> ins !! i = Some ti ->
  Value_Kind (ValueOf a) <> Type_Kind ti ->
  Type_Kind ti <> Interface ->
  exists pv : iface, JobFunc.execute code j params log = (Panic pv, log).
Proof.
  intros Hb Hlen Ha Hti Hk Hi.
  rewrite (execute_calls _ _ _ _ _ _ _ _ Hb Hlen).
  destruct Hb as [Hj Hsig]. rewrite Hj.
  unfold bindM at 1. unfold Value_Call. rewrite Hsig.
  rewrite length_map, Hlen. cbv zeta. cbn [negb andb].
  rewrite Nat.ltb_irrefl.
  destruct (existsb _ (map ValueOf params)); [eexists; reflexivity|].
  assert (Hasg : argsAssignable ins false (map ValueOf params) = false).
  { unfold argsAssignable.
    apply (forallb_zip_false _ _ _ i (ValueOf a) ti).
    - rewrite list_lookup_fmap, Ha. reflexivity.
    - exact Hti.
    - destruct a as [[xt xd]|]; [|reflexivity].
      apply kind_mismatch_not_assignable; assumption. }
  rewrite Hasg. eexists. reflexivity.
Qed.

End Execute.

Section ExecuteInstances.
Import reflect.
Import Samples.

Lemma check_fails_iff_shape_mismatch_witness :
  bound_to (NewJobFunc okHandler)
    (TFunc [int_t; string_t] [error_t] false) (PFunc (Some 0%nat))
    [int_t; string_t] [error_t] false
  /\ implements error_t error_t = true
  /\ ((fails (JobFunc.check (NewJobFunc okHandler) [ofInt 3])
       <-> length [ofInt 3] <> length [int_t; string_t]
           \/ kind_mismatch [int_t; string_t] [ofInt 3])
      /\ (~ (length [ofInt 3] <> length [int_t; string_t]
             \/ kind_mismatch [int_t; string_t] [ofInt 3])
          -> JobFunc.check (NewJobFunc okHandler) [ofInt 3] = Ret None)).
Proof.
  split; [split; reflexivity|]. split; [reflexivity|].
  apply (check_fails_iff_shape_mismatch (NewJobFunc okHandler) [ofInt 3]
           (TFunc [int_t; string_t] [error_t] false) (PFunc (Some 0%nat))
           [int_t; string_t] error_t false);
    [split; reflexivity|reflexivity].
Defined.

Lemma check_rejects_ill_shaped_callable_witness :
  (Value_Kind (JobFunc.jobFunc (NewJobFunc returnsInt)) <> Func
   \/ (exists ty d ins outs variadic,
         bound_to (NewJobFunc returnsInt) ty d ins outs variadic
         /\ (length outs <> 1%nat
             \/ exists out, outs = [out] /\ implements error_t out = false)))
  /\ fails (JobFunc.check (NewJobFunc returnsInt) [ofInt 3]).
Proof.
  assert (H : Value_Kind (JobFunc.jobFunc (NewJobFunc returnsInt)) <> Func
              \/ (exists ty d ins outs variadic,
                    bound_to (NewJobFunc returnsInt) ty d ins outs variadic
                    /\ (length outs <> 1%nat
                        \/ exists out, outs = [out] /\ implements error_t out = false))).
  { right. exists (TFunc [int_t] [int_t] false), (PFunc (Some 3%nat)), [int_t], [int_t], false.
    split; [split; reflexivity|]. right. exists int_t. split; reflexivity. }
  split; [exact H|].
  exact (check_rejects_ill_shaped_callable (NewJobFunc returnsInt) [ofInt 3] H).
Defined.

Lemma okHandler_bound :
  bound_to (NewJobFunc okHandler)
    (TFunc [int_t; string_t] [error_t] false) (PFunc (Some 0%nat))
    [int_t; string_t] [error_t] false.
Proof. split; reflexivity. Qed.

Lemma okHandler_args_well_shaped :
  well_shaped [int_t; string_t] false [ofInt 3; ofString "x"].
Proof.
  split; [reflexivity|]. split; [|reflexivity].
  repeat constructor; discriminate.
Qed.

(** The example of the specification: [func(a int, b string) error
    { return nil }] with [(3, "x")] and with [(3,)]. *)
Lemma execute_arity_guard_and_success_witness :
  bound_to (NewJobFunc okHandler)
    (TFunc [int_t; string_t] [error_t] false) (PFunc (Some 0%nat))
    [int_t; string_t] [error_t] false
  /\ JobFunc.execute code (NewJobFunc okHandler) [ofInt 3] []
     = (Ret (errors.New "func parameters mismatch"), [])
  /\ JobFunc.execute code (NewJobFunc okHandler) [ofInt 3; ofString "x"] []
     = (Ret None,
        [] ++ [(0%nat, received [int_t; string_t] false [ofInt 3; ofString "x"])]).
Proof.
  split; [exact okHandler_bound|].
  destruct (execute_arity_guard_and_success code (NewJobFunc okHandler)
              _ _ _ _ _ okHandler_bound) as [Hguard Hok].
  split.
  - apply Hguard. simpl. lia.
  - apply (Hok [ofInt 3; ofString "x"] [] 0%nat error_t (PIface None));
      try reflexivity.
    exact okHandler_args_well_shaped.
Defined.

Lemma sendEmail_args_well_shaped :
  well_shaped [string_t; int_t] false [ofString "a@example.com"; ofInt 0].
Proof.
  split; [reflexivity|]. split; [|reflexivity].
  repeat constructor; discriminate.
Qed.

Lemma execute_returns_the_callable_error_witness :
  JobFunc.execute code (NewJobFunc sendEmail) [ofString "a@example.com"; ofInt 0] []
  = (Ret (errors.New "smtp down"),
     [] ++ [(1%nat, received [string_t; int_t] false [ofString "a@example.com"; ofInt 0])]).
Proof.
  apply (execute_returns_the_callable_error code (NewJobFunc sendEmail)
           (TFunc [string_t; int_t] [error_t] false) [string_t; int_t] error_t false
           1%nat [ofString "a@example.com"; ofInt 0] []
           (PIface (errors.New "smtp down"))).
  - split; reflexivity.
  - exact sendEmail_args_well_shaped.
  - reflexivity.
  - reflexivity.
  - reflexivity.
Defined.

Lemma panicking_args_well_shaped : well_shaped [int_t] false [ofInt 3].
Proof.
  split; [reflexivity|]. split; [|reflexivity].
  repeat constructor; discriminate.
Qed.

Lemma execute_propagates_panic_witness :
  JobFunc.execute code (NewJobFunc panicking) [ofInt 3] []
  = (Panic (panicStr "boom"), [] ++ [(2%nat, received [int_t] false [ofInt 3])]).
Proof.
  apply (execute_propagates_panic code (NewJobFunc panicking)
           (TFunc [int_t] [error_t] false) [int_t] [error_t] false
           2%nat [ofInt 3] [] (panicStr "boom")).
  - split; reflexivity.
  - exact panicking_args_well_shaped.
  - reflexivity.
Defined.

(** C7 as stated fails: [func(a int) error { panic("boom") }] is bound,
    the argument list [(3)] is well shaped, the callable throws, and
    [execute] does not return an error (or anything): it panics. *)
Lemma callable_panic_is_not_an_error_result :
  bound_to (NewJobFunc panicking)
    (TFunc [int_t] [error_t] false) (PFunc (Some 2%nat)) [int_t] [error_t] false
  /\ well_shaped [int_t] false [ofInt 3]
  /\ code 2%nat (received [int_t] false [ofInt 3]) = Throws (panicStr "boom")
  /\ ~ (exists (e : error) (log' : Log),
          JobFunc.execute code (NewJobFunc panicking) [ofInt 3] [] = (Ret e, log')).
Proof.
  split; [split; reflexivity|].
  split; [exact panicking_args_well_shaped|].
  split; [reflexivity|].
  intros (e & log' & H). vm_compute in H. discriminate H.
Qed.

(** C9.  [execute] validates no kinds: there is a JobFunc and a list of
    parameters of the declared length, with an element whose kind
    differs from the kind of its declared parameter (so that [check]
    refuses the list), on which [execute] panics in [Call], the
    callable not invoked, instead of returning an error. *)
Theorem execute_panics_on_kind_mismatch :
  exists (j : JobFunc.t) (ins : list rtype) (params : list iface) (pv : iface),
    bound_to j (TFunc ins [error_t] false) (PFunc (Some 0%nat)) ins [error_t] false
    /\ JobFunc.paramsCount j = Ret (length params)
    /\ kind_mismatch ins params
    /\ fails (JobFunc.check j params)
    /\ forall log : Log, JobFunc.execute code j params log = (Panic pv, log).
Proof.
  exists (NewJobFunc okHandler), [int_t; string_t], [ofString "x"; ofInt 3],
    (panicStr "reflect: Call using value as type").
  split; [split; reflexivity|].
  split; [reflexivity|].
  split.
  { exists 0%nat, (ofString "x"), int_t.
    split; [reflexivity|]. split; [reflexivity|]. discriminate. }
  split.
  { eexists. split; reflexivity. }
  intros log.
  apply (execute_panics_unassignable code (NewJobFunc okHandler)
           (TFunc [int_t; string_t] [error_t] false) [int_t; string_t] [error_t] false 0%nat).
  - split; reflexivity.
  - reflexivity.
  - repeat constructor; discriminate.
  - reflexivity.
Qed.

End ExecuteInstances.

(* ===================================================================== *)
(** ** JobContainer *)
(* ===================================================================== *)

Section Descriptor.
Import reflect.
Import JobContainer.

Lemma setter_on_live (f : t -> t) (a : nat) (c : t) (h : heap) :
  h !! a = Some c ->
  match deref (Some a) h with
  | Ret c' => (Ret (Some a), assign (Some a) (f c') h)
  | Panic v => (Panic v, h)
  end = (Ret (Some a), <[a := f c]> h).
Proof. simpl. intros ->. reflexivity. Qed.

Ltac run_setters :=
  repeat (first
    [ progress unfold chain3, andThen, RetryTimeout, RetryErrorLimit, RetryTimeoutLimit
    | erewrite setter_on_live by (first [eassumption | apply lookup_insert_eq])
    | rewrite insert_insert_eq ]).

(** C8.  On a live descriptor every setter returns the pointer it was
    called on and leaves the heap with that descriptor's field set to
    the value supplied, everything else as before; a second call to the
    same setter leaves the value of the second call; and setters of
    distinct fields, chained in any order, leave the same heap. *)
Theorem setters_mutate_return_and_commute
    (h : heap) (a : nat) (c : t) (x x' y y' z z' : Z) :
  h !! a = Some c ->
  (RetryTimeout (Some a) x h = (Ret (Some a), <[a := set_retryTimeout x c]> h)
   /\ RetryErrorLimit (Some a) y h = (Ret (Some a), <[a := set_retryOnErrorLimit y c]> h)
   /\ RetryTimeoutLimit (Some a) z h
      = (Ret (Some a), <[a := set_retryOnTimeoutLimit z c]> h))
  /\ (andThen (RetryTimeout (Some a) x h) (fun j => RetryTimeout j x')
      = RetryTimeout (Some a) x' h
      /\ andThen (RetryErrorLimit (Some a) y h) (fun j => RetryErrorLimit j y')
         = RetryErrorLimit (Some a) y' h
      /\ andThen (RetryTimeoutLimit (Some a) z h) (fun j => RetryTimeoutLimit j z')
         = RetryTimeoutLimit (Some a) z' h)
  /\ (andThen (RetryTimeout (Some a) x h) (fun j => RetryErrorLimit j y)
      = andThen (RetryErrorLimit (Some a) y h) (fun j => RetryTimeout j x)
      /\ andThen (RetryTimeout (Some a) x h) (fun j => RetryTimeoutLimit j z)
         = andThen (RetryTimeoutLimit (Some a) z h) (fun j => RetryTimeout j x)
      /\ andThen (RetryErrorLimit (Some a) y h) (fun j => RetryTimeoutLimit j z)
         = andThen (RetryTimeoutLimit (Some a) z h) (fun j => RetryErrorLimit j y))
  /\ (let final := (Ret (Some a),
                    <[a := {| jobFunc := jobFunc c;
                              retryTimeout := x;
                              retryOnErrorLimit := y;
                              retryOnTimeoutLimit := z |}]> h) in
      let T := fun j => RetryTimeout j x in
      let E := fun j => RetryErrorLimit j y in
      let L := fun j => RetryTimeoutLimit j z in
      chain3 T E L (Some a) h = final /\ chain3 T L E (Some a) h = final
      /\ chain3 E T L (Some a) h = final /\ chain3 E L T (Some a) h = final
      /\ chain3 L T E (Some a) h = final /\ chain3 L E T (Some a) h = final).
Proof.
  intros Hc. cbv zeta.
  repeat split; run_setters; reflexivity.
Qed.

End Descriptor.

Section DescriptorInstances.
Import reflect.
Import JobContainer.

Lemma setters_mutate_return_and_commute_witness :
  let c := {| jobFunc := Some (NewJobFunc Samples.sendEmail);
              retryTimeout := 0; retryOnErrorLimit := 0; retryOnTimeoutLimit := 0 |} in
  let h : heap := {[ 7%nat := c ]} in
  h !! 7%nat = Some c
  /\ chain3 (fun j => RetryErrorLimit j 3) (fun j => RetryTimeout j 30000000000)
       (fun j => RetryTimeoutLimit j 1) (Some 7%nat) h
     = (Ret (Some 7%nat),
        <[7%nat := {| jobFunc := Some (NewJobFunc Samples.sendEmail);
                      retryTimeout := 30000000000;
                      retryOnErrorLimit := 3;
                      retryOnTimeoutLimit := 1 |}]> h).
Proof.
  intros c h.
  assert (Hc : h !! 7%nat = Some c) by reflexivity.
  split; [exact Hc|].
  pose proof (setters_mutate_return_and_commute h 7%nat c
                30000000000 0 3 0 1 0 Hc) as (_ & _ & _ & Hall).
  cbv zeta in Hall.
  destruct Hall as (_ & _ & Hetl & _). exact Hetl.
Defined.

End DescriptorInstances.

(* ===================================================================== *)
(** ** Args *)
(* ===================================================================== *)

Section ArgsClaims.
Import reflect.
Variable lib : Libraries.

Lemma Value_empty : Args.Value lib [] = (None, None).
Proof. reflexivity. Qed.

Lemma Value_nonempty (p : Args.t) :
  p <> [] ->
  Args.Value lib p = (ofString (String.string_of_list_byte (gob_Encode lib p).1), None).
Proof.
  intros Hp. unfold Args.Value.
  rewrite bool_decide_false by (destruct p; [congruence|discriminate]).
  destruct (gob_Encode lib p) as [buf e]. reflexivity.
Qed.

Lemma Scan_string (p : Args.t) (data : string) :
  Args.Scan lib p (ofString data) = gob_Decode lib (String.list_byte_of_string data) p.
Proof. reflexivity. Qed.

Lemma Scan_nil (p : Args.t) :
  Args.Scan lib p None
  = (p, errors.New (fmt_Sprint lib [ofString "failed to unmarshal params value:"; None])).
Proof. reflexivity. Qed.

(** C1, as the code has it.  For every non-empty Argument List whose
    elements are within the set the codec supports, [Value] returns a
    string and no error, and [Scan] of that string stores in the
    receiver, whatever it held, the same list, element for element and
    in order, and returns no error. *)
Theorem nonempty_args_roundtrip
    (supported : iface -> Prop) (a p : Args.t) :
  gob_roundtrips lib supported ->
  a <> [] ->
  Forall supported a ->
  exists data : string,
    Args.Value lib a = (ofString data, None)
    /\ Args.Scan lib p (Args.Value lib a).1 = (a, None).
Proof.
  intros Hgob Hne Hsup.
  destruct (Hgob a p Hne Hsup) as (buf & Henc & Hdec).
  rewrite (Value_nonempty a Hne), Henc. simpl.
  eexists. split; [reflexivity|].
  rewrite Scan_string, String.list_byte_of_string_of_list_byte. exact Hdec.
Qed.

(** C2, as the code has it.  [Value] on an empty Argument List returns
    the nil marker and no error; [Scan] of that marker returns an error
    and leaves the receiver as it was. *)
Theorem empty_args_value_is_nil_and_scan_refuses_it (p : Args.t) :
  Args.Value lib [] = (None, None)
  /\ exists msg : string,
      Args.Scan lib p (Args.Value lib []).1 = (p, errors.New msg).
Proof.
  split; [reflexivity|]. eexists. reflexivity.
Qed.

(** C10.  [Value] never returns a non-nil error: whatever the encoder
    wrote and whatever error it reported, the error [Value] returns is
    nil, and on a non-empty list the value is the string of the bytes
    written. *)
Theorem Value_discards_encoder_error (p : Args.t) (buf : list byte) (e : error) :
  gob_Encode lib p = (buf, e) ->
  (Args.Value lib p).2 = None
  /\ (p <> [] -> Args.Value lib p = (ofString (String.string_of_list_byte buf), None)).
Proof.
  intros Henc. split.
  - unfold Args.Value. case_bool_decide; [reflexivity|].
    rewrite Henc. reflexivity.
  - intros Hne. rewrite (Value_nonempty p Hne), Henc. reflexivity.
Qed.

End ArgsClaims.

(* ===================================================================== *)
(** ** The reference codec meets the contract *)
(* ===================================================================== *)

Section RefCodecFacts.
Import RefCodec.

Lemma dec_pos_enc_pos (q : positive) (r : list byte) :
  dec_pos (enc_pos q ++ r) = Some (q, r).
Proof.
  induction q as [q IH|q IH|]; simpl; [rewrite IH|rewrite IH|]; reflexivity.
Qed.

Lemma dec_Z_enc_Z (z : Z) (r : list byte) : dec_Z (enc_Z z ++ r) = Some (z, r).
Proof.
  destruct z as [|q|q]; simpl; [|rewrite dec_pos_enc_pos..]; reflexivity.
Qed.

Lemma dec_str_enc_str (s : string) (r : list byte) :
  dec_str (enc_str s ++ r) = Some (s, r).
Proof.
  induction s as [|c s IH]; simpl; [reflexivity|].
  rewrite IH, Ascii.ascii_of_byte_of_ascii. reflexivity.
Qed.

Lemma enc_elem_inv (x : reflect.iface) (b : list byte) :
  enc_elem x = Some b ->
  (exists v : bool, x = Samples.ofBool v /\ b = [x01; if v then x01 else x00])
  \/ (exists z : Z, x = Samples.ofInt z /\ b = x02 :: enc_Z z)
  \/ (exists s : string, x = ofString s /\ b = x03 :: enc_str s).
Proof.
  destruct x as [[t d]|]; [|discriminate].
  destruct t as [k| | | | | |]; try discriminate.
  destruct k; try discriminate; destruct d; try discriminate;
    intros H; injection H as <-; eauto.
Qed.

Lemma dec_elem_enc_elem (x : reflect.iface) (b r : list byte) :
  enc_elem x = Some b -> dec_elem (b ++ r) = Some (x, r) /\ 1 <= length b.
Proof.
  intros H.
  destruct (enc_elem_inv x b H) as [(v & -> & ->)|[(z & -> & ->)|(s & -> & ->)]].
  - destruct v; simpl; split; (reflexivity || lia).
  - simpl. rewrite dec_Z_enc_Z. split; [reflexivity|lia].
  - simpl. rewrite dec_str_enc_str. split; [reflexivity|lia].
Qed.

Lemma dec_list_enc_list (l : list reflect.iface) :
  forall (bs : list byte) (fuel : nat),
    enc_list l = Some bs -> length bs <= fuel -> dec_list fuel bs = Some l.
Proof.
  induction l as [|x l IH]; intros bs fuel Henc Hfuel; simpl in Henc.
  - injection Henc as <-. destruct fuel; reflexivity.
  - destruct (enc_elem x) as [b|] eqn:Hx; [|discriminate].
    destruct (enc_list l) as [bs'|] eqn:Hl; [|discriminate].
    injection Henc as <-.
    destruct (dec_elem_enc_elem x b bs' Hx) as [Hdec Hb].
    rewrite length_app in Hfuel.
    destruct fuel as [|fuel]; [lia|].
    destruct (b ++ bs') as [|b0 rest] eqn:Hcat.
    { apply (f_equal length) in Hcat. rewrite length_app in Hcat. simpl in Hcat. lia. }
    cbn [dec_list].
    rewrite Hdec, (IH bs' fuel eq_refl) by lia. reflexivity.
Qed.

Lemma enc_list_supported (l : list reflect.iface) :
  Forall supported l -> exists bs, enc_list l = Some bs /\ length l <= length bs.
Proof.
  induction 1 as [|x l [b Hx] _ (bs & Hl & Hlen)]; simpl.
  - exists []. split; [reflexivity|simpl; lia].
  - rewrite Hx, Hl. exists (b ++ bs). split; [reflexivity|].
    destruct (dec_elem_enc_elem x b [] Hx) as [_ Hb].
    rewrite length_app. simpl. lia.
Qed.

Lemma RefCodec_roundtrips : gob_roundtrips lib supported.
Proof.
  intros a p Hne Hsup.
  destruct (enc_list_supported a Hsup) as (bs & Henc & Hlen).
  exists bs. simpl. unfold Encode, Decode. rewrite Henc.
  split; [reflexivity|].
  destruct bs as [|b0 rest] eqn:Hbs.
  { destruct a; [congruence|simpl in Hlen; lia]. }
  rewrite <- Hbs in *. rewrite (dec_list_enc_list a bs (length bs) Henc) by lia.
  reflexivity.
Qed.

End RefCodecFacts.

Section ArgsInstances.
Import reflect.
Import Samples.

(** The scenario of the specification: the arguments of "send-email". *)
Lemma nonempty_args_roundtrip_witness :
  gob_roundtrips RefCodec.lib RefCodec.supported
  /\ [ofString "a@example.com"; ofInt 0] <> []
  /\ Forall RefCodec.supported [ofString "a@example.com"; ofInt 0]
  /\ exists data : string,
      Args.Value RefCodec.lib [ofString "a@example.com"; ofInt 0] = (ofString data, None)
      /\ Args.Scan RefCodec.lib [ofBool true]
           (Args.Value RefCodec.lib [ofString "a@example.com"; ofInt 0]).1
         = ([ofString "a@example.com"; ofInt 0], None).
Proof.
  assert (Hsup : Forall RefCodec.supported [ofString "a@example.com"; ofInt 0]).
  { repeat constructor; eexists; reflexivity. }
  split; [exact RefCodec_roundtrips|].
  split; [discriminate|].
  split; [exact Hsup|].
  apply (nonempty_args_roundtrip RefCodec.lib RefCodec.supported
           [ofString "a@example.com"; ofInt 0] [ofBool true]
           RefCodec_roundtrips);
    [discriminate|exact Hsup].
Defined.

(** C1 as stated fails on the empty list: its elements are (vacuously)
    supported and the codec meets its contract, yet [Scan] of what
    [Value] returned reports an error, and a receiver that held
    something still holds it. *)
Lemma roundtrip_fails_on_the_empty_list :
  gob_roundtrips RefCodec.lib RefCodec.supported
  /\ Forall RefCodec.supported []
  /\ notNil (Args.Scan RefCodec.lib [] (Args.Value RefCodec.lib []).1).2 = true
  /\ (Args.Scan RefCodec.lib [ofBool true] (Args.Value RefCodec.lib []).1).1 <> [].
Proof.
  split; [exact RefCodec_roundtrips|].
  split; [constructor|].
  split; [reflexivity|].
  vm_compute. discriminate.
Qed.

(** C2 as stated fails: encoding the empty list and decoding the result
    does produce an error. *)
Lemma empty_args_do_not_decode :
  Args.Value RefCodec.lib [] = (None, None)
  /\ ~ (exists p' : Args.t,
          Args.Scan RefCodec.lib [] (Args.Value RefCodec.lib []).1 = (p', None)).
Proof.
  split; [reflexivity|].
  intros (p' & H). vm_compute in H. discriminate H.
Qed.

(** A function value is not encodable: the encoder reports an error and
    [Value] returns the (empty) string written and nil. *)
Lemma Value_discards_encoder_error_witness :
  gob_Encode RefCodec.lib [okHandler]
  = ([], errors.New "gob: type not registered for interface")
  /\ (Args.Value RefCodec.lib [okHandler]).2 = None
  /\ ([okHandler] <> [] -> Args.Value RefCodec.lib [okHandler] = (ofString "", None)).
Proof.
  split; [reflexivity|].
  exact (Value_discards_encoder_error RefCodec.lib [okHandler] []
           (errors.New "gob: type not registered for interface") eq_refl).
Defined.

End ArgsInstances.

(* ===================================================================== *)
(** ** Further properties: type identity *)
(* ===================================================================== *)

Section TypeIdentity.
Import reflect.

Lemma rtype_eqb_sound (a b : rtype) : rtype_eqb a b = true -> a = b.
Proof.
  revert a b. fix rtype_eqb_sound 1. intros a b.
  destruct a as [k|k descr|e|e|ms|ins outs v|n u ms pms];
    destruct b as [k'|k' descr'|e'|e'|ms'|ins' outs' v'|n' u' ms' pms'];
    simpl; try discriminate.
  - intros H. apply bool_decide_eq_true in H. congruence.
  - intros H. apply andb_prop in H as [H1 H2].
    apply bool_decide_eq_true in H1, H2. congruence.
  - intros H. f_equal. apply rtype_eqb_sound. exact H.
  - intros H. f_equal. apply rtype_eqb_sound. exact H.
  - intros H. apply bool_decide_eq_true in H. congruence.
  - intros H. apply andb_prop in H as [H Hv]. apply andb_prop in H as [Hi Ho].
    apply bool_decide_eq_true in Hv. subst v'.
    assert (Hins : ins = ins').
    { clear -rtype_eqb_sound Hi. revert ins' Hi.
      induction ins as [|x l IH]; intros [|y l'] Hall; try discriminate; auto.
      apply andb_prop in Hall as [Hx Hr]. f_equal.
      - apply rtype_eqb_sound. exact Hx.
      - apply IH. exact Hr. }
    assert (Houts : outs = outs').
    { clear -rtype_eqb_sound Ho. revert outs' Ho.
      induction outs as [|x l IH]; intros [|y l'] Hall; try discriminate; auto.
      apply andb_prop in Hall as [Hx Hr]. f_equal.
      - apply rtype_eqb_sound. exact Hx.
      - apply IH. exact Hr. }
    congruence.
  - intros H. apply andb_prop in H as [H Hp]. apply andb_prop in H as [H Hm].
    apply andb_prop in H as [Hn Hu].
    apply bool_decide_eq_true in Hp, Hm, Hn.
    apply rtype_eqb_sound in Hu. congruence.
Qed.

Lemma rtype_eqb_refl (a : rtype) : rtype_eqb a a = true.
Proof.
  revert a. fix rtype_eqb_refl 1. intros a.
  destruct a as [k|k descr|e|e|ms|ins outs v|n u ms pms]; simpl.
  - apply bool_decide_eq_true. reflexivity.
  - rewrite !bool_decide_true by reflexivity. reflexivity.
  - apply rtype_eqb_refl.
  - apply rtype_eqb_refl.
  - apply bool_decide_eq_true. reflexivity.
  - rewrite (bool_decide_true (v = v)) by reflexivity.
    assert (Hins : forall l : list rtype,
               (forall x, rtype_eqb x x = true) ->
               (fix all2 (l l' : list rtype) {struct l} : bool :=
                  match l with
                  | [] => match l' with [] => true | _ :: _ => false end
                  | x :: l0 =>
                      match l' with
                      | [] => false
                      | y :: l'0 => rtype_eqb x y && all2 l0 l'0
                      end
                  end) l l = true).
    { intros l Hx. induction l as [|x l IH]; [reflexivity|].
      rewrite Hx, IH. reflexivity. }
    rewrite (Hins ins rtype_eqb_refl), (Hins outs rtype_eqb_refl). reflexivity.
  - rewrite rtype_eqb_refl, !bool_decide_true by reflexivity. reflexivity.
Qed.

Lemma rtype_eqb_neq (a b : rtype) : a <> b -> rtype_eqb a b = false.
Proof.
  intros Hne. destruct (rtype_eqb a b) eqn:E; [|reflexivity].
  exfalso. apply Hne. apply rtype_eqb_sound. exact E.
Qed.

(** A value is assignable to its own type. *)
Lemma assignable_same_type (ty : rtype) : Type_AssignableTo ty ty = true.
Proof.
  unfold Type_AssignableTo, directlyAssignable. rewrite rtype_eqb_refl. reflexivity.
Qed.

(** Two distinct named types, the target not an interface type: not
    assignable, whatever their kinds. *)
Lemma distinct_named_not_assignable (xt targ : rtype) :
  xt <> targ -> hasName xt = true -> hasName targ = true ->
  Type_Kind targ <> Interface ->
  Type_AssignableTo xt targ = false.
Proof.
  intros Hne Hx Ht Hi. unfold Type_AssignableTo, directlyAssignable, implements.
  rewrite rtype_eqb_neq by congruence.
  rewrite Hx, Ht. simpl.
  rewrite bool_decide_false by assumption. reflexivity.
Qed.

Lemma underlying_slice_kind (t e : rtype) : underlying t = TSlice e -> Type_Kind t = Slice.
Proof.
  induction t; simpl; intros H; try discriminate; auto.
Qed.

End TypeIdentity.

(* ===================================================================== *)
(** ** Further properties: JobFunc.check *)
(* ===================================================================== *)

Section CheckMore.
Import reflect.

(** On a function with one result that implements [error], [check] is the
    comparison of the lengths followed by the loop over the kinds. *)
Lemma check_on_handler (j : JobFunc.t) (args : list iface) ty d ins out variadic :
  bound_to j ty d ins [out] variadic ->
  implements error_t out = true ->
  JobFunc.check j args
  = if bool_decide (length ins <> length args) then
      Ret (errors.New "the number of args do not match the jobs args")
    else JobFunc.check_args ty args (length ins) 0.
Proof.
  intros [Hj Hsig] Himpl. unfold JobFunc.check. rewrite Hj. simpl.
  rewrite (funcSig_kind _ _ Hsig).
  rewrite bool_decide_false by (intros H; apply H; reflexivity).
  unfold Type_NumOut, Type_Out, Type_NumIn. rewrite Hsig. simpl.
  rewrite Himpl. reflexivity.
Qed.

(** What [check] returning means for the bound value. *)
Lemma check_returns_inv (j : JobFunc.t) (args : list iface) (e : error) :
  JobFunc.check j args = Ret e ->
  (exists msg, e = errors.New msg
     /\ forall args', JobFunc.check j args' = Ret (errors.New msg))
  \/ exists ty d ins out variadic,
       bound_to j ty d ins [out] variadic /\ implements error_t out = true.
Proof.
  unfold JobFunc.check. case_bool_decide as Hk.
  { intros H. injection H as <-. left. eexists. split; reflexivity. }
  destruct (JobFunc.jobFunc j) as [|ty d] eqn:Hj.
  { exfalso. destruct (decide (Value_Kind zeroValue = Func)) as [E|E];
      [discriminate E|]. apply E. tauto. }
  simpl. unfold Type_NumOut, Type_Out, Type_NumIn.
  destruct (funcSig ty) as [[[ins outs] variadic]|] eqn:Hsig; [|discriminate].
  simpl. case_bool_decide as Hn.
  { intros H. injection H as <-. left. eexists. split; reflexivity. }
  assert (Hone : length outs = 1%nat).
  { destruct (decide (length outs = 1%nat)); [assumption|tauto]. }
  destruct outs as [|out [|out' outs]]; try discriminate Hone.
  simpl. destruct (implements error_t out) eqn:Himpl; simpl.
  - intros _. right. exists ty, d, ins, out, variadic. repeat split; assumption.
  - intros H. injection H as <-. left. eexists. split; reflexivity.
Qed.

(** X1.  [check] never panics: whatever was bound (nil, a value that is
    not a function, a function of any signature) and whatever the
    arguments, it returns; no index is out of range and no reflect call is
    made on a type that does not support it. *)
Theorem check_never_panics (j : JobFunc.t) (args : list iface) :
  (Value_Kind (JobFunc.jobFunc j) <> Func
   \/ exists ty d ins outs variadic, bound_to j ty d ins outs variadic) ->
  exists e : error, JobFunc.check j args = Ret e.
Proof.
  intros [Hk|(ty & d & ins & outs & variadic & Hj & Hsig)].
  - unfold JobFunc.check. rewrite bool_decide_true by assumption. eauto.
  - destruct outs as [|out [|out' outs]].
    + unfold JobFunc.check. rewrite Hj. simpl. rewrite (funcSig_kind _ _ Hsig).
      rewrite bool_decide_false by (intros H; apply H; reflexivity).
      unfold Type_NumOut. rewrite Hsig. simpl. eauto.
    + destruct (implements error_t out) eqn:Himpl.
      * rewrite (check_on_handler j args ty d ins out variadic (conj Hj Hsig) Himpl).
        case_bool_decide as Hlen; [eauto|].
        assert (Hlen' : length args = length ins).
        { destruct (decide (length ins = length args)); [congruence|contradiction]. }
        destruct (check_args_spec ty ins [out] variadic args Hsig Hlen' (length ins) 0)
          as [[-> _]|[-> _]]; [lia|eauto..].
      * unfold JobFunc.check. rewrite Hj. simpl. rewrite (funcSig_kind _ _ Hsig).
        rewrite bool_decide_false by (intros H; apply H; reflexivity).
        unfold Type_NumOut, Type_Out. rewrite Hsig. simpl. rewrite Himpl. simpl. eauto.
    + unfold JobFunc.check. rewrite Hj. simpl. rewrite (funcSig_kind _ _ Hsig).
      rewrite bool_decide_false by (intros H; apply H; reflexivity).
      unfold Type_NumOut. rewrite Hsig. simpl. eauto.
Qed.

(** X2.  [check] returns nil exactly when the bound value is a function
    with one result whose type implements [error], the arguments are as
    many as its parameters, and every argument has the kind of the
    parameter at its position. *)
Theorem check_accepts_iff (j : JobFunc.t) (args : list iface) :
  JobFunc.check j args = Ret None
  <-> exists ty d ins out variadic,
        bound_to j ty d ins [out] variadic
        /\ implements error_t out = true
        /\ length args = length ins
        /\ ~ kind_mismatch ins args.
Proof.
  split.
  - intros Hc.
    destruct (check_returns_inv j args None Hc)
      as [(msg & Hmsg & _)|(ty & d & ins & out & variadic & Hb & Himpl)];
      [discriminate Hmsg|].
    exists ty, d, ins, out, variadic. split; [exact Hb|]. split; [exact Himpl|].
    rewrite (check_on_handler j args ty d ins out variadic Hb Himpl) in Hc.
    case_bool_decide as Hlen; [discriminate Hc|].
    assert (Hlen' : length args = length ins).
    { destruct (decide (length ins = length args)); [congruence|contradiction]. }
    split; [exact Hlen'|].
    destruct Hb as [_ Hsig].
    destruct (check_args_spec ty ins [out] variadic args Hsig Hlen' (length ins) 0)
      as [[_ Hag]|[He _]]; [lia| |].
    + intros (i & a & ti & Ha & Hti & Hk). apply Hk. apply (Hag i); auto. lia.
    + rewrite He in Hc. discriminate Hc.
  - intros (ty & d & ins & out & variadic & Hb & Himpl & Hlen & Hno).
    rewrite (check_on_handler j args ty d ins out variadic Hb Himpl).
    rewrite bool_decide_false by (intros H; apply H; congruence).
    destruct Hb as [_ Hsig].
    destruct (check_args_spec ty ins [out] variadic args Hsig Hlen (length ins) 0)
      as [[He _]|[_ Hmis]]; [lia|exact He|contradiction].
Qed.

Lemma check_args_kinds (ty : rtype) (args args' : list iface) :
  map kindOf args = map kindOf args' ->
  forall remaining i : nat,
    JobFunc.check_args ty args remaining i = JobFunc.check_args ty args' remaining i.
Proof.
  intros Hk remaining. induction remaining as [|r IH]; intros i; simpl; [reflexivity|].
  assert (Hi : kindOf <$> args !! i = kindOf <$> args' !! i).
  { rewrite <- !list_lookup_fmap. change (map kindOf args !! i = map kindOf args' !! i).
    rewrite Hk. reflexivity. }
  unfold index.
  destruct (args !! i) as [a|], (args' !! i) as [a'|]; simpl in Hi; try discriminate;
    [|reflexivity].
  injection Hi as Hi. simpl.
  destruct (Type_In ty i) as [ti|pv]; simpl; [|reflexivity].
  unfold kindOf in Hi. rewrite Hi, IH. reflexivity.
Qed.

(** X3.  [check] looks at the arguments through their kinds only: two
    argument lists with the same kinds, position by position, get the same
    answer, whatever the values and whatever the exact types. *)
Theorem check_depends_on_kinds_only (j : JobFunc.t) (args args' : list iface) :
  map kindOf args = map kindOf args' ->
  JobFunc.check j args = JobFunc.check j args'.
Proof.
  intros Hk.
  assert (Hlen : length args = length args').
  { rewrite <- (length_map kindOf args), Hk. apply length_map. }
  unfold JobFunc.check. rewrite Hlen.
  case_bool_decide; [reflexivity|].
  destruct (Value_Type (JobFunc.jobFunc j)) as [ty|pv]; simpl; [|reflexivity].
  destruct (Type_NumOut ty) as [n|pv]; simpl; [|reflexivity].
  case_bool_decide; [reflexivity|].
  destruct (Type_Out ty 0) as [out0|pv]; simpl; [|reflexivity].
  destruct (implements error_t out0); simpl; [|reflexivity].
  destruct (Type_NumIn ty) as [numIn|pv]; simpl; [|reflexivity].
  case_bool_decide; [reflexivity|].
  apply check_args_kinds. exact Hk.
Qed.

(** X4.  After [check] has accepted an argument list, [paramsCount]
    returns the length of that list. *)
Theorem paramsCount_after_check (j : JobFunc.t) (args : list iface) :
  JobFunc.check j args = Ret None ->
  JobFunc.paramsCount j = Ret (length args).
Proof.
  intros Hc.
  destruct (check_returns_inv j args None Hc)
    as [(msg & Hmsg & _)|(ty & d & ins & out & variadic & Hb & Himpl)];
    [discriminate Hmsg|].
  rewrite (check_on_handler j args ty d ins out variadic Hb Himpl) in Hc.
  case_bool_decide as Hlen; [discriminate Hc|].
  destruct Hb as [Hj Hsig].
  unfold JobFunc.paramsCount. rewrite Hj. simpl. unfold Type_NumIn. rewrite Hsig.
  destruct (decide (length ins = length args)); [congruence|contradiction].
Qed.

End CheckMore.

(* ===================================================================== *)
(** ** Further properties: JobFunc.execute *)
(* ===================================================================== *)

Section ExecuteMore.
Import reflect.
Variable code : CodeTable.

(** [Call] runs at most one body. *)
Lemma Call_logs_at_most_one (v : Value) (in_ : list Value) (log : Log) :
  exists (r : Outcome (list Value)) (calls : Log),
    Value_Call code v in_ log = (r, log ++ calls) /\ length calls <= 1.
Proof.
  assert (Hp : forall pv, exists (r : Outcome (list Value)) (calls : Log),
               @panicM (list Value) pv log = (r, log ++ calls) /\ length calls <= 1).
  { intros pv. exists (Panic pv), []. rewrite app_nil_r. split; [reflexivity|simpl; lia]. }
  unfold Value_Call.
  destruct v as [|t d]; [apply Hp|].
  destruct (funcSig t) as [[[ins outs] variadic]|]; [|apply Hp].
  destruct d as [| | | | | | |fn|]; try apply Hp.
  destruct fn as [id|]; [|apply Hp].
  cbv zeta.
  repeat (match goal with |- context [if ?b then _ else _] => destruct b end;
          [apply Hp|]).
  unfold invoke.
  destruct (code id (prepareArgs ins variadic in_)) as [rs|pv];
    eexists _, [_]; (split; [reflexivity|simpl; lia]).
Qed.

(** What [execute] does with the results of the call touches no log. *)
Lemma inspection_is_pure (res : list Value) (log : Log) :
  exists r : Outcome error,
    (if bool_decide (length res <> 1%nat) then
       retM (errors.New "func does not return a value")
     else
       let* r0 := liftO (index res 0) in
       let* x := liftO (Value_Interface r0) in
       let '(err, ok) := assertError x in
       if ok && notNil err then retM err else retM None) log
    = (r, log).
Proof.
  case_bool_decide; [eexists; reflexivity|].
  unfold bindM, liftO.
  destruct (index res 0) as [r0|pv]; [|eexists; reflexivity].
  destruct (Value_Interface r0) as [x|pv]; [|eexists; reflexivity].
  destruct (assertError x) as [err ok].
  destruct (ok && notNil err); eexists; reflexivity.
Qed.

(** X5.  [execute] invokes the callable at most once, whatever is bound
    and whatever the parameters: the log of invocations grows by at most
    one entry. *)
Theorem execute_invokes_at_most_once (j : JobFunc.t) (params : list iface) (log : Log) :
  exists (r : Outcome error) (calls : Log),
    JobFunc.execute code j params log = (r, log ++ calls) /\ length calls <= 1.
Proof.
  unfold JobFunc.execute. unfold bindM at 1. unfold liftO at 1.
  destruct (JobFunc.paramsCount j) as [n|pv].
  2:{ exists (Panic pv), []. rewrite app_nil_r. split; [reflexivity|simpl; lia]. }
  case_bool_decide.
  { eexists _, []. rewrite app_nil_r. split; [reflexivity|simpl; lia]. }
  unfold bindM at 1. unfold liftO at 1. rewrite fill_in_spec.
  unfold bindM at 1.
  destruct (Call_logs_at_most_one (JobFunc.jobFunc j) (map ValueOf params) log)
    as (rc & calls & -> & Hlen).
  destruct rc as [res|pv].
  - destruct (inspection_is_pure res (log ++ calls)) as [r ->].
    exists r, calls. split; [reflexivity|exact Hlen].
  - exists (Panic pv), calls. split; [reflexivity|exact Hlen].
Qed.

(** X6.  [execute] does not check that a function is bound: on a JobFunc
    made from nil or from a value that is not a function it panics in
    [paramsCount], for every parameter list, and nothing is invoked. *)
Theorem execute_panics_when_not_a_function
    (j : JobFunc.t) (params : list iface) (log : Log) :
  (JobFunc.jobFunc j = zeroValue
   \/ exists ty d, JobFunc.jobFunc j = MkValue ty d /\ funcSig ty = None) ->
  exists pv : iface, JobFunc.execute code j params log = (Panic pv, log).
Proof.
  intros [Hj|(ty & d & Hj & Hsig)];
    unfold JobFunc.execute, JobFunc.paramsCount; rewrite Hj;
    unfold bindM at 1; unfold liftO at 1; simpl.
  - eexists. reflexivity.
  - unfold Type_NumIn. rewrite Hsig. eexists. reflexivity.
Qed.

(** X7.  A handler that was never checked and whose single result is of
    a type that does not implement [error]: [execute] runs it and returns
    nil, whatever the result. *)
Theorem execute_reports_success_on_non_error_result
    (j : JobFunc.t) ty ins out variadic (id : nat)
    (params : list iface) (log : Log) (res : payload) (rt : rtype) (rd : payload) :
  bound_to j ty (PFunc (Some id)) ins [out] variadic ->
  well_shaped ins variadic params ->
  code id (received ins variadic params) = Returns [res] ->
  Value_Interface (MkValue out res) = Ret (Some (rt, rd)) ->
  implements error_t rt = false ->
  JobFunc.execute code j params log
  = (Ret None, log ++ [(id, received ins variadic params)]).
Proof.
  intros Hb Hws Hcode Hval Himpl.
  rewrite (execute_invokes code _ _ _ _ _ _ _ _ Hb Hws).
  unfold bindM at 1. unfold invoke. rewrite Hcode.
  cbn [zip_with length].
  rewrite bool_decide_false by (intros H; apply H; reflexivity).
  unfold bindM, liftO.
  change (index [MkValue out res] 0) with (@Ret Value (MkValue out res)).
  cbv beta iota. rewrite Hval.
  unfold assertError. rewrite Himpl. reflexivity.
Qed.

(** X8.  A handler that was never checked and does not declare exactly
    one result: [execute] runs it first and only then returns the error
    "func does not return a value". *)
Theorem execute_runs_then_rejects_result_count
    (j : JobFunc.t) ty ins outs variadic (id : nat)
    (params : list iface) (log : Log) (rs : list payload) :
  bound_to j ty (PFunc (Some id)) ins outs variadic ->
  length outs <> 1%nat ->
  well_shaped ins variadic params ->
  code id (received ins variadic params) = Returns rs ->
  length rs = length outs ->
  JobFunc.execute code j params log
  = (Ret (errors.New "func does not return a value"),
     log ++ [(id, received ins variadic params)]).
Proof.
  intros Hb Hn Hws Hcode Hrs.
  rewrite (execute_invokes code _ _ _ _ _ _ _ _ Hb Hws).
  unfold bindM at 1. unfold invoke. rewrite Hcode.
  rewrite length_zip_with, Hrs, Nat.min_id.
  rewrite bool_decide_true by assumption. reflexivity.
Qed.

End ExecuteMore.

(* ===================================================================== *)
(** ** Further properties: check and execute together *)
(* ===================================================================== *)

Section CheckThenExecute.
Import reflect.
Variable code : CodeTable.

(** What an accepted argument list tells about the binding. *)
Lemma check_nil_inv (j : JobFunc.t) (args : list iface) :
  JobFunc.check j args = Ret None ->
  exists ty d ins out variadic,
    bound_to j ty d ins [out] variadic
    /\ implements error_t out = true
    /\ length args = length ins
    /\ kinds_agree_from ins args 0.
Proof.
  intros Hc.
  destruct (check_returns_inv j args None Hc)
    as [(msg & Hmsg & _)|(ty & d & ins & out & variadic & Hb & Himpl)];
    [discriminate Hmsg|].
  exists ty, d, ins, out, variadic. split; [exact Hb|]. split; [exact Himpl|].
  rewrite (check_on_handler j args ty d ins out variadic Hb Himpl) in Hc.
  case_bool_decide as Hlen; [discriminate Hc|].
  assert (Hlen' : length args = length ins).
  { destruct (decide (length ins = length args)); [congruence|contradiction]. }
  split; [exact Hlen'|].
  destruct Hb as [_ Hsig].
  destruct (check_args_spec ty ins [out] variadic args Hsig Hlen' (length ins) 0)
    as [[_ Hag]|[He _]]; [lia|exact Hag|].
  rewrite He in Hc. discriminate Hc.
Qed.

Lemma bound_to_unique (j : JobFunc.t) ty d ins outs v ty' d' ins' outs' v' :
  bound_to j ty d ins outs v -> bound_to j ty' d' ins' outs' v' ->
  ty = ty' /\ d = d' /\ ins = ins' /\ outs = outs' /\ v = v'.
Proof.
  intros [Hj Hsig] [Hj' Hsig']. rewrite Hj in Hj'. injection Hj' as <- <-.
  rewrite Hsig in Hsig'. injection Hsig' as <- <- <-. repeat split.
Qed.

Lemma forallb_lookup_false {A} (f : A -> bool) (l : list A) (i : nat) (x : A) :
  l !! i = Some x -> f x = false -> forallb f l = false.
Proof.
  revert i. induction l as [|y l IH]; intros i Hl Hf; [discriminate|].
  destruct i as [|i]; simpl in *.
  - injection Hl as ->. rewrite Hf. reflexivity.
  - rewrite (IH i Hl Hf). apply andb_false_r.
Qed.

(** Arguments of the declared number that [Call] finds not assignable:
    [execute] panics before the body runs. *)
Lemma execute_panics_when_not_assignable
    (j : JobFunc.t) ty ins outs variadic (id : nat) (params : list iface) (log : Log) :
  bound_to j ty (PFunc (Some id)) ins outs variadic ->
  length params = length ins ->
  argsAssignable ins variadic (map ValueOf params) = false ->
  exists pv : iface, JobFunc.execute code j params log = (Panic pv, log).
Proof.
  intros Hb Hlen Hasg.
  rewrite (execute_calls code _ _ _ _ _ _ _ _ Hb Hlen).
  destruct Hb as [Hj Hsig]. rewrite Hj.
  unfold bindM at 1. unfold Value_Call. rewrite Hsig.
  rewrite length_map, Hlen.
  assert (Hfew : (length ins <? (if variadic then length ins - 1 else length ins))%nat = false).
  { apply Nat.ltb_ge. destruct variadic; lia. }
  assert (Hmany : negb variadic
                  && ((if variadic then length ins - 1 else length ins) <? length ins)%nat
                  = false).
  { destruct variadic; simpl; [reflexivity|]. apply Nat.ltb_ge. lia. }
  cbv zeta. rewrite Hfew, Hmany.
  destruct (existsb _ (map ValueOf params)); [eexists; reflexivity|].
  rewrite Hasg. eexists. reflexivity.
Qed.

(** X9.  A variadic handler whose variadic parameter has elements of a
    type that is neither an interface nor of slice kind: every argument
    list that [check] accepts makes [execute] panic, the handler never
    running.  [check] wants a slice in the last position; [Call] takes the
    last argument for one element. *)
Theorem checked_variadic_args_always_panic
    (j : JobFunc.t) ty (front : list rtype) (st e out : rtype) (id : nat)
    (params : list iface) (log : Log) :
  bound_to j ty (PFunc (Some id)) (front ++ [st]) [out] true ->
  underlying st = TSlice e ->
  Type_Kind e <> Slice ->
  Type_Kind e <> Interface ->
  JobFunc.check j params = Ret None ->
  exists pv : iface, JobFunc.execute code j params log = (Panic pv, log).
Proof.
  intros Hb Hst Hes Hei Hc.
  destruct (check_nil_inv j params Hc)
    as (ty' & d' & ins' & out' & v' & Hb' & _ & Hlen & Hag).
  destruct (bound_to_unique _ _ _ _ _ _ _ _ _ _ _ Hb Hb') as (_ & _ & <- & _ & _).
  apply (execute_panics_when_not_assignable j ty (front ++ [st]) [out] true id);
    [exact Hb|exact Hlen|].
  rewrite length_app in Hlen. simpl in Hlen.
  destruct (lookup_lt_is_Some_2 params (length front)) as [a Ha]; [lia|].
  assert (Hlast : (front ++ [st]) !! length front = Some st).
  { apply list_lookup_middle. reflexivity. }
  assert (Hka : Value_Kind (ValueOf a) = Slice).
  { rewrite (Hag (length front) a st); [|lia|exact Ha|exact Hlast].
    apply (underlying_slice_kind st e Hst). }
  unfold argsAssignable. rewrite length_app. simpl.
  replace (length front + 1 - 1) with (length front) by lia.
  rewrite Hlast, Hst.
  apply andb_false_intro2.
  apply (forallb_lookup_false _ _ 0 (ValueOf a)).
  - rewrite lookup_drop, Nat.add_0_r, list_lookup_fmap, Ha. reflexivity.
  - destruct a as [[xt xd]|]; [|reflexivity].
    apply kind_mismatch_not_assignable; [|exact Hei].
    simpl in Hka. rewrite Hka. congruence.
Qed.

(** X10.  [check] compares kinds, [Call] types: when [check] accepts a
    list in which some argument is of a named type other than the named,
    non-interface type of its parameter (a [UserID] for an [int]),
    [execute] panics and the handler does not run. *)
Theorem checked_args_of_another_named_type_panic
    (j : JobFunc.t) ty ins out (id : nat) (params : list iface) (log : Log)
    (i : nat) (xt : rtype) (xd : payload) (ti : rtype) :
  bound_to j ty (PFunc (Some id)) ins [out] false ->
  JobFunc.check j params = Ret None ->
  params !! i = Some (typed xt xd) ->
  ins !! i = Some ti ->
  xt <> ti ->
  hasName xt = true -> hasName ti = true ->
  Type_Kind ti <> Interface ->
  exists pv : iface, JobFunc.execute code j params log = (Panic pv, log).
Proof.
  intros Hb Hc Ha Hti Hne Hnx Hnt Hi.
  destruct (check_nil_inv j params Hc)
    as (ty' & d' & ins' & out' & v' & Hb' & _ & Hlen & _).
  destruct (bound_to_unique _ _ _ _ _ _ _ _ _ _ _ Hb Hb') as (_ & _ & <- & _ & _).
  apply (execute_panics_when_not_assignable j ty ins [out] false id);
    [exact Hb|exact Hlen|].
  unfold argsAssignable.
  apply (forallb_zip_false _ _ _ i (MkValue xt xd) ti).
  - rewrite list_lookup_fmap, Ha. reflexivity.
  - exact Hti.
  - simpl. apply distinct_named_not_assignable; assumption.
Qed.

Lemma typed_args_kinds_agree (ins : list rtype) (datas : list payload) :
  kinds_agree_from ins (zip_with typed ins datas) 0.
Proof.
  intros k a tk _ Ha Htk.
  rewrite lookup_zip_with in Ha. rewrite Htk in Ha. simpl in Ha.
  destruct (datas !! k) as [d|]; [|discriminate].
  simpl in Ha. injection Ha as <-. reflexivity.
Qed.

Lemma typed_args_assignable (ins : list rtype) (datas : list payload) :
  forallb (fun '(x, t) => assignableValue x t)
    (zip (map ValueOf (zip_with typed ins datas)) ins) = true.
Proof.
  revert datas. induction ins as [|t ins IH]; intros [|d datas]; try reflexivity.
  simpl. rewrite assignable_same_type. apply IH.
Qed.

Lemma typed_args_received (ins : list rtype) (datas : list payload) :
  length datas = length ins ->
  received ins false (zip_with typed ins datas) = zip_with MkValue ins datas.
Proof.
  unfold received, prepareArgs.
  revert datas. induction ins as [|t ins IH]; intros [|d datas] Hlen;
    try discriminate; [reflexivity|].
  simpl in *. rewrite IH by lia. f_equal.
  destruct (Type_Kind t); reflexivity.
Qed.

Lemma typed_args_valid (ins : list rtype) (datas : list payload) :
  Forall (fun t => Type_Kind t <> Invalid) ins ->
  Forall (fun a => Value_Kind (ValueOf a) <> Invalid) (zip_with typed ins datas).
Proof.
  intros Hins. revert datas.
  induction Hins as [|t ins Ht _ IH]; intros [|d datas]; simpl; constructor; auto.
Qed.

(** X11.  Arguments of exactly the declared parameter types (none of
    them an interface type), for a handler that is not variadic and
    returns one [error]: [check] accepts them, and [execute] passes the
    checks of [Call] and runs the handler once, on these very values. *)
Theorem exactly_typed_args_reach_the_handler
    (j : JobFunc.t) ty ins out (id : nat) (datas : list payload) (log : Log) :
  bound_to j ty (PFunc (Some id)) ins [out] false ->
  implements error_t out = true ->
  length datas = length ins ->
  Forall (fun t => Type_Kind t <> Invalid /\ Type_Kind t <> Interface) ins ->
  JobFunc.check j (zip_with typed ins datas) = Ret None
  /\ exists r : Outcome error,
      JobFunc.execute code j (zip_with typed ins datas) log
      = (r, log ++ [(id, zip_with MkValue ins datas)]).
Proof.
  intros Hb Himpl Hlen Hins'.
  assert (Hins : Forall (fun t => Type_Kind t <> Invalid) ins).
  { eapply Forall_impl; [exact Hins'|]. intros t [H _]. exact H. }
  assert (Hplen : length (zip_with typed ins datas) = length ins).
  { rewrite length_zip_with. lia. }
  split.
  - rewrite (check_on_handler j _ ty _ ins out false Hb Himpl).
    rewrite bool_decide_false by (intros H; apply H; congruence).
    destruct Hb as [_ Hsig].
    destruct (check_args_spec ty ins [out] false _ Hsig Hplen (length ins) 0)
      as [[He _]|[_ (i & a & ti & Ha & Hti & Hk)]]; [lia|exact He|].
    exfalso. apply Hk.
    apply (typed_args_kinds_agree ins datas i a ti); [lia|exact Ha|exact Hti].
  - assert (Hws : well_shaped ins false (zip_with typed ins datas)).
    { split; [exact Hplen|]. split; [apply typed_args_valid; exact Hins|].
      apply typed_args_assignable. }
    rewrite (execute_invokes code _ _ _ _ _ _ _ _ Hb Hws).
    rewrite (typed_args_received ins datas Hlen).
    unfold bindM at 1. unfold invoke.
    destruct (code id (zip_with MkValue ins datas)) as [rs|pv].
    + destruct (inspection_is_pure (zip_with MkValue [out] rs)
                  (log ++ [(id, zip_with MkValue ins datas)])) as [r ->].
      exists r. reflexivity.
    + eexists. reflexivity.
Qed.

End CheckThenExecute.

(* ===================================================================== *)
(** ** Further properties: chains of configuration calls *)
(* ===================================================================== *)

Section ChainFacts.
Import reflect.
Import JobContainer.
Import Chain.

Lemma default_last_cons {A} (d x : A) (l : list A) :
  default d (last (x :: l)) = default x (last l).
Proof.
  revert d x. induction l as [|y l IH]; intros d x; [reflexivity|].
  rewrite last_cons_cons. rewrite (IH d y), (IH x y). reflexivity.
Qed.

Lemma configured_nil (c : t) : configured [] c = c.
Proof. destruct c. reflexivity. Qed.

Lemma configured_cons (k : call) (rest : list call) (c : t) :
  configured (k :: rest) c
  = configured rest
      match k with
      | CallRetryTimeout x => set_retryTimeout x c
      | CallRetryErrorLimit x => set_retryOnErrorLimit x c
      | CallRetryTimeoutLimit x => set_retryOnTimeoutLimit x c
      end.
Proof.
  unfold configured, timeouts, errorLimits, timeoutLimits.
  destruct k; simpl; rewrite default_last_cons; reflexivity.
Qed.

Lemma perform_on_live (k : call) (a : nat) (c : t) (h : heap) :
  h !! a = Some c ->
  perform k (Some a) h
  = (Ret (Some a),
     <[a := match k with
            | CallRetryTimeout x => set_retryTimeout x c
            | CallRetryErrorLimit x => set_retryOnErrorLimit x c
            | CallRetryTimeoutLimit x => set_retryOnTimeoutLimit x c
            end]> h).
Proof.
  intros Hc. destruct k; simpl;
    unfold RetryTimeout, RetryErrorLimit, RetryTimeoutLimit; simpl;
    rewrite Hc; reflexivity.
Qed.

(** X12.  A chain of configuration calls of any length on a live
    descriptor returns the pointer it started from and leaves that
    descriptor with each policy field at the last value the chain supplied
    for it (or untouched when it supplied none); the bound JobFunc and
    every other descriptor of the heap are as before. *)
Theorem chain_leaves_last_values
    (calls : list call) (a : nat) (c : t) (h : heap) :
  h !! a = Some c ->
  run calls (Some a) h = (Ret (Some a), <[a := configured calls c]> h).
Proof.
  revert c h. induction calls as [|k rest IH]; intros c h Hc.
  - simpl. rewrite configured_nil, insert_id by exact Hc. reflexivity.
  - cbn [run]. rewrite (perform_on_live k a c h Hc). cbn [andThen].
    rewrite (IH _ _ (lookup_insert_eq h a _)).
    rewrite insert_insert_eq, configured_cons. reflexivity.
Qed.

(** X13.  On a nil pointer, or one that points to no descriptor, a chain
    with at least one call panics at its first call and the heap is as
    before. *)
Theorem chain_on_nil_panics (k : call) (rest : list call) (j : ptr) (h : heap) :
  (j = None \/ exists a, j = Some a /\ h !! a = None) ->
  run (k :: rest) j h = (Panic nilDereference, h).
Proof.
  intros Hj.
  assert (Hd : deref j h = Panic nilDereference).
  { destruct Hj as [->|(a & -> & Ha)]; simpl; [reflexivity|]. rewrite Ha. reflexivity. }
  cbn [run]. destruct k; simpl;
    unfold RetryTimeout, RetryErrorLimit, RetryTimeoutLimit; rewrite Hd; reflexivity.
Qed.

End ChainFacts.

(* ===================================================================== *)
(** ** Further properties: Args *)
(* ===================================================================== *)

Section ArgsMore.
Import reflect.
Variable lib : Libraries.

(** X14.  [Value] returns the nil marker exactly for the empty list: a
    list with an element always yields a string, so the marker is never
    confused with an encoding. *)
Theorem Value_is_nil_iff_empty (p : Args.t) :
  (Args.Value lib p).1 = None <-> p = [].
Proof.
  split.
  - intros H. destruct p as [|x p]; [reflexivity|].
    rewrite (Value_nonempty lib (x :: p)) in H by discriminate. discriminate H.
  - intros ->. reflexivity.
Qed.

(** X15.  For a non-empty list, what [Scan] hands to the decoder is byte
    for byte what the encoder wrote for [Value]: the passage through a
    string loses nothing, whatever the codec does. *)
Theorem Scan_reads_what_Value_wrote (p q : Args.t) :
  p <> [] ->
  Args.Scan lib q (Args.Value lib p).1 = gob_Decode lib (gob_Encode lib p).1 q.
Proof.
  intros Hp. rewrite (Value_nonempty lib p Hp). simpl.
  rewrite Scan_string, String.list_byte_of_string_of_list_byte. reflexivity.
Qed.

(** X16.  [Scan] accepts strings only: for any other value (nil, a byte
    slice, a number) it returns an error and the receiver is as before,
    the decoder not being consulted. *)
Theorem Scan_refuses_what_is_not_a_string (p : Args.t) (value : iface) :
  (forall s : string, value <> ofString s) ->
  exists msg : string, Args.Scan lib p value = (p, errors.New msg).
Proof.
  intros Hv. unfold Args.Scan.
  assert (Ha : assertString value = ("", false)).
  { destruct value as [[ty d]|]; [|reflexivity].
    destruct ty as [k| | | | | |]; try reflexivity.
    destruct k; try reflexivity.
    destruct d; try reflexivity.
    exfalso. apply (Hv s). reflexivity. }
  rewrite Ha. simpl. eexists. reflexivity.
Qed.

End ArgsMore.

(* ===================================================================== *)
(** ** Instances of the further properties *)
(* ===================================================================== *)

Section MoreInstances.
Import reflect.
Import Samples.
Import MoreSamples.

Lemma check_never_panics_witness :
  Value_Kind (JobFunc.jobFunc (NewJobFunc (ofInt 42))) <> Func
  /\ exists e : error, JobFunc.check (NewJobFunc (ofInt 42)) [ofInt 3] = Ret e.
Proof.
  assert (H : Value_Kind (JobFunc.jobFunc (NewJobFunc (ofInt 42))) <> Func)
    by discriminate.
  split; [exact H|].
  exact (check_never_panics (NewJobFunc (ofInt 42)) [ofInt 3] (or_introl H)).
Defined.

Lemma check_depends_on_kinds_only_witness :
  map kindOf [ofInt 3; ofString "x"] = map kindOf [typed userID_t (PInt 9); ofString "y"]
  /\ JobFunc.check (NewJobFunc okHandler) [ofInt 3; ofString "x"]
     = JobFunc.check (NewJobFunc okHandler) [typed userID_t (PInt 9); ofString "y"].
Proof.
  split; [reflexivity|].
  apply (check_depends_on_kinds_only (NewJobFunc okHandler)). reflexivity.
Defined.

Lemma paramsCount_after_check_witness :
  JobFunc.check (NewJobFunc okHandler) [ofInt 3; ofString "x"] = Ret None
  /\ JobFunc.paramsCount (NewJobFunc okHandler) = Ret (length [ofInt 3; ofString "x"]).
Proof.
  split; [reflexivity|].
  apply (paramsCount_after_check (NewJobFunc okHandler) [ofInt 3; ofString "x"]).
  reflexivity.
Defined.

Lemma execute_panics_when_not_a_function_witness :
  (exists ty d, JobFunc.jobFunc (NewJobFunc (ofInt 42)) = MkValue ty d /\ funcSig ty = None)
  /\ exists pv : iface,
      JobFunc.execute Samples.code (NewJobFunc (ofInt 42)) [ofInt 3] [] = (Panic pv, []).
Proof.
  assert (H : exists ty d,
             JobFunc.jobFunc (NewJobFunc (ofInt 42)) = MkValue ty d /\ funcSig ty = None).
  { exists int_t, (PInt 42). split; reflexivity. }
  split; [exact H|].
  exact (execute_panics_when_not_a_function Samples.code (NewJobFunc (ofInt 42))
           [ofInt 3] [] (or_intror H)).
Defined.

Lemma five_args_well_shaped : well_shaped [int_t] false [ofInt 1].
Proof.
  split; [reflexivity|]. split; [|reflexivity].
  repeat constructor; discriminate.
Qed.

Lemma execute_reports_success_on_non_error_result_witness :
  implements error_t int_t = false
  /\ JobFunc.execute MoreSamples.code (NewJobFunc five) [ofInt 1] []
     = (Ret None, [] ++ [(0%nat, received [int_t] false [ofInt 1])]).
Proof.
  split; [reflexivity|].
  apply (execute_reports_success_on_non_error_result MoreSamples.code (NewJobFunc five)
           (TFunc [int_t] [int_t] false) [int_t] int_t false 0%nat [ofInt 1] []
           (PInt 5) int_t (PInt 5)).
  - split; reflexivity.
  - exact five_args_well_shaped.
  - reflexivity.
  - reflexivity.
  - reflexivity.
Defined.

Lemma no_args_well_shaped : well_shaped [] false [].
Proof. split; [reflexivity|]. split; [constructor|reflexivity]. Qed.

Lemma execute_runs_then_rejects_result_count_witness :
  JobFunc.execute MoreSamples.code (NewJobFunc noResult) [] []
  = (Ret (errors.New "func does not return a value"),
     [] ++ [(1%nat, received [] false [])]).
Proof.
  apply (execute_runs_then_rejects_result_count MoreSamples.code (NewJobFunc noResult)
           (TFunc [] [] false) [] [] false 1%nat [] [] []).
  - split; reflexivity.
  - discriminate.
  - exact no_args_well_shaped.
  - reflexivity.
  - reflexivity.
Defined.

Lemma checked_variadic_args_always_panic_witness :
  JobFunc.check (NewJobFunc sum) [typed intSlice_t (PSlice [PInt 1; PInt 2])] = Ret None
  /\ exists pv : iface,
      JobFunc.execute MoreSamples.code (NewJobFunc sum)
        [typed intSlice_t (PSlice [PInt 1; PInt 2])] []
      = (Panic pv, []).
Proof.
  split; [reflexivity|].
  apply (checked_variadic_args_always_panic MoreSamples.code (NewJobFunc sum)
           (TFunc [intSlice_t] [error_t] true) [] intSlice_t int_t error_t 2%nat).
  - split; reflexivity.
  - reflexivity.
  - discriminate.
  - discriminate.
  - reflexivity.
Defined.

Lemma checked_args_of_another_named_type_panic_witness :
  JobFunc.check (NewJobFunc byId) [typed userID_t (PInt 7)] = Ret None
  /\ userID_t <> int_t
  /\ exists pv : iface,
      JobFunc.execute MoreSamples.code (NewJobFunc byId) [typed userID_t (PInt 7)] []
      = (Panic pv, []).
Proof.
  split; [reflexivity|]. split; [discriminate|].
  apply (checked_args_of_another_named_type_panic MoreSamples.code (NewJobFunc byId)
           (TFunc [int_t] [error_t] false) [int_t] error_t 3%nat
           [typed userID_t (PInt 7)] [] 0%nat userID_t (PInt 7) int_t).
  - split; reflexivity.
  - reflexivity.
  - reflexivity.
  - reflexivity.
  - discriminate.
  - reflexivity.
  - reflexivity.
  - discriminate.
Defined.

Lemma exactly_typed_args_reach_the_handler_witness :
  JobFunc.check (NewJobFunc okHandler) (zip_with typed [int_t; string_t] [PInt 3; PStr "x"])
  = Ret None
  /\ exists r : Outcome error,
      JobFunc.execute Samples.code (NewJobFunc okHandler)
        (zip_with typed [int_t; string_t] [PInt 3; PStr "x"]) []
      = (r, [] ++ [(0%nat, zip_with MkValue [int_t; string_t] [PInt 3; PStr "x"])]).
Proof.
  apply (exactly_typed_args_reach_the_handler Samples.code (NewJobFunc okHandler)
           (TFunc [int_t; string_t] [error_t] false) [int_t; string_t] error_t 0%nat
           [PInt 3; PStr "x"] []).
  - split; reflexivity.
  - reflexivity.
  - reflexivity.
  - repeat constructor; discriminate.
Defined.

Lemma chain_leaves_last_values_witness :
  let c := {| JobContainer.jobFunc := Some (NewJobFunc sendEmail);
              JobContainer.retryTimeout := 0;
              JobContainer.retryOnErrorLimit := 0;
              JobContainer.retryOnTimeoutLimit := 5 |} in
  let h : gmap nat JobContainer.t := {[ 7%nat := c ]} in
  let calls := [Chain.CallRetryTimeout 10; Chain.CallRetryErrorLimit 3;
                Chain.CallRetryTimeout 30] in
  h !! 7%nat = Some c
  /\ Chain.run calls (Some 7%nat) h
     = (Ret (Some 7%nat),
        <[7%nat := {| JobContainer.jobFunc := Some (NewJobFunc sendEmail);
                      JobContainer.retryTimeout := 30;
                      JobContainer.retryOnErrorLimit := 3;
                      JobContainer.retryOnTimeoutLimit := 5 |}]> h).
Proof.
  intros c h calls.
  assert (Hc : h !! 7%nat = Some c) by reflexivity.
  split; [exact Hc|].
  exact (chain_leaves_last_values calls 7%nat c h Hc).
Defined.

Lemma chain_on_nil_panics_witness :
  Chain.run [Chain.CallRetryTimeout 10; Chain.CallRetryErrorLimit 3] None ∅
  = (Panic nilDereference, ∅).
Proof.
  apply (chain_on_nil_panics (Chain.CallRetryTimeout 10) [Chain.CallRetryErrorLimit 3]
           None ∅).
  left. reflexivity.
Defined.

Lemma Scan_reads_what_Value_wrote_witness :
  [ofInt 1] <> []
  /\ Args.Scan RefCodec.lib [] (Args.Value RefCodec.lib [ofInt 1]).1
     = gob_Decode RefCodec.lib (gob_Encode RefCodec.lib [ofInt 1]).1 [].
Proof.
  split; [discriminate|].
  apply (Scan_reads_what_Value_wrote RefCodec.lib [ofInt 1] []). discriminate.
Defined.

Lemma Scan_refuses_what_is_not_a_string_witness :
  (forall s : string, typed bytes_t (PSlice [PInt 104; PInt 105]) <> ofString s)
  /\ exists msg : string,
      Args.Scan RefCodec.lib [ofInt 1] (typed bytes_t (PSlice [PInt 104; PInt 105]))
      = ([ofInt 1], errors.New msg).
Proof.
  assert (H : forall s : string, typed bytes_t (PSlice [PInt 104; PInt 105]) <> ofString s)
    by (intros s; discriminate).
  split; [exact H|].
  exact (Scan_refuses_what_is_not_a_string RefCodec.lib [ofInt 1]
           (typed bytes_t (PSlice [PInt 104; PInt 105])) H).
Defined.

Lemma execute_panics_on_mismatched_kind_witness :
  Value_Kind (ValueOf (ofString "x")) <> Type_Kind int_t
  /\ exists pv : iface,
      JobFunc.execute Samples.code (NewJobFunc okHandler) [ofString "x"; ofInt 3] []
      = (Panic pv, []).
Proof.
  split; [discriminate|].
  apply (execute_panics_on_mismatched_kind Samples.code (NewJobFunc okHandler)
           (TFunc [int_t; string_t] [error_t] false) [int_t; string_t] [error_t] 0%nat
           [ofString "x"; ofInt 3] [] 0%nat (ofString "x") int_t).
  - split; reflexivity.
  - reflexivity.
  - reflexivity.
  - reflexivity.
  - discriminate.
  - discriminate.
Defined.

End MoreInstances.
